(** * Verification of the Google Maps crawl orchestrator

    Shallow embedding of [src/scraper.py] (class [GoogleMapsScraper]) and of
    the command surface of [src/main.py].

    - Python [str] values are sequences of Unicode code points: [list N].
    - The builtin [str.lower] is an interface ([Lowercase]) with the laws
      the proofs use; [latin1] implements it for concrete evaluation.
    - Coroutines are cut at their [await] points: what runs between two
      awaits is one atomic step of the event loop. *)

From Stdlib Require Import NArith ZArith Lia List String Ascii Bool.
From stdpp Require Import base decidable option list countable gmap sets.
Import ListNotations.

Set Default Proof Using "Type".
Local Open Scope N_scope.

(** ** Python strings *)

Abbreviation str := (list N).

(** Decoder for the UTF-8 bytes of a literal, so that the tables of the
    source can be written down as they appear there. *)
Fixpoint utf8_decode (bs : list N) : str :=
  match bs with
  | [] => []
  | b0 :: t0 =>
    if b0 <? 128 then b0 :: utf8_decode t0
    else match t0 with
    | [] => [b0]
    | b1 :: t1 =>
      if b0 <? 224 then ((b0 - 192) * 64 + (b1 - 128)) :: utf8_decode t1
      else match t1 with
      | [] => [b0; b1]
      | b2 :: t2 =>
        if b0 <? 240
        then ((b0 - 224) * 4096 + (b1 - 128) * 64 + (b2 - 128)) :: utf8_decode t2
        else match t2 with
        | [] => [b0; b1; b2]
        | b3 :: t3 =>
          ((b0 - 240) * 262144 + (b1 - 128) * 4096 + (b2 - 128) * 64 + (b3 - 128))
            :: utf8_decode t3
        end
      end
    end
  end.

Definition U (s : string) : str :=
  utf8_decode (map N_of_ascii (list_ascii_of_string s)).

(** [Py_UNICODE_ISSPACE]: the code points for which [str.isspace] holds.
    Both the regular expression class [\s] (on [str] patterns) and
    [str.strip()] use this test. *)
Definition isspace (c : N) : bool :=
  ((9 <=? c) && (c <=? 13)) || ((28 <=? c) && (c <=? 32))
  || (c =? 133) || (c =? 160) || (c =? 5760)
  || ((8192 <=? c) && (c <=? 8202))
  || (c =? 8232) || (c =? 8233) || (c =? 8239) || (c =? 8287) || (c =? 12288).

Definition nonspace (c : N) : bool := negb (isspace c).

Definition SPACE : N := 32.

(** [s.lstrip()], [s.rstrip()], [s.strip()] *)
Fixpoint lstrip (s : str) : str :=
  match s with
  | [] => []
  | c :: t => if isspace c then lstrip t else s
  end.

Definition rstrip (s : str) : str := rev (lstrip (rev s)).

Definition strip (s : str) : str := rstrip (lstrip s).

(** [re.sub(r"\s+", " ", s)]: the scanner replaces every maximal run of
    whitespace by one U+0020.  [in_run] tells that the previous code point
    belonged to the run being replaced. *)
Fixpoint sub_ws_from (in_run : bool) (s : str) : str :=
  match s with
  | [] => []
  | c :: t =>
    if isspace c
    then (if in_run then sub_ws_from true t else SPACE :: sub_ws_from true t)
    else c :: sub_ws_from false t
  end.

Definition sub_ws (s : str) : str := sub_ws_from false s.

(** [a.startswith(p)] and [p in a] on strings *)
Fixpoint startswith (a p : str) {struct p} : bool :=
  match p, a with
  | [], _ => true
  | _ :: _, [] => false
  | x :: p', y :: a' => (x =? y) && startswith a' p'
  end.

Fixpoint contains (a p : str) : bool :=
  startswith a p ||
  match a with
  | [] => false
  | _ :: a' => contains a' p
  end.

(** [s.replace(old, new)] for a non-empty [old]: leftmost non-overlapping
    occurrences.  [skip] counts the code points of a matched occurrence
    that are still to be dropped. *)
Fixpoint replace_from (old new : str) (skip : nat) (s : str) : str :=
  match s with
  | [] => []
  | c :: t =>
    match skip with
    | S k => replace_from old new k t
    | O =>
      if startswith s old
      then new ++ replace_from old new (length old - 1) t
      else c :: replace_from old new 0 t
    end
  end.

Definition replace (old new : str) (s : str) : str := replace_from old new 0 s.

(** Lowercase mapping of the Basic Latin and Latin-1 Supplement blocks
    (A-Z, À-Þ without the multiplication sign): what [str.lower] does to a
    code point below 256. *)
Definition lower_cp (c : N) : N :=
  if ((65 <=? c) && (c <=? 90)) || ((192 <=? c) && (c <=? 222) && negb (c =? 215))
  then c + 32 else c.

Definition latin1_lower (s : str) : str := map lower_cp s.

(** ** The builtin [str.lower]

    Lowercasing works word by word: whitespace is neither cased nor
    case-ignorable, so a whitespace code point is kept and no casing rule
    looks across it.  On Latin-1 text it is [latin1_lower]. *)
Class Lowercase := {
  lower : str → str;
  lower_nil : lower [] = [];
  lower_sep a c b :
    isspace c = true → lower (a ++ c :: b) = lower a ++ c :: lower b;
  lower_word w :
    w ≠ [] → forallb nonspace w = true →
    lower w ≠ [] ∧ forallb nonspace (lower w) = true;
  lower_lower s : lower (lower s) = lower s;
  lower_latin1 s : forallb (λ c, c <? 256) s = true → lower s = map lower_cp s
}.

(** ** Text normalisation and search-space expansion ([GoogleMapsScraper]) *)

Section Scraper_text.
Context {L : Lowercase}.

(** [self.sinonimos]: a dict literal, iterated in insertion order. *)
Definition sinonimos : list (str * list str) :=
  [ (U "restaurante", [U "restaurant"; U "comida"; U "food"; U "gastronomía"; U "cocina"]);
    (U "hotel", [U "hospedaje"; U "alojamiento"; U "hostal"; U "lodge"; U "inn"]);
    (U "minería", [U "mining"; U "minera"; U "mina"; U "extracción minera"]);
    (U "construcción", [U "construccion"; U "building"; U "obra"; U "contractor"]);
    (U "farmacia", [U "pharmacy"; U "botica"; U "drugstore"]);
    (U "panadería", [U "bakery"; U "pan"; U "bread"; U "pastelería"]);
    (U "ferretería", [U "hardware store"; U "herramientas"; U "tools"]) ].

(** The [replacements] dict of [_normalize_text], in insertion order. *)
Definition replacements : list (str * str) :=
  [ (U "á", U "a"); (U "é", U "e"); (U "í", U "i"); (U "ó", U "o"); (U "ú", U "u");
    (U "ñ", U "n") ].

(** [_normalize_text]: lowercase, then apply every replacement in turn. *)
Definition _normalize_text (text : str) : str :=
  fold_left (λ text '(old, new), replace old new text) replacements (lower text).

(** The local function [norm] of [_make_key]. *)
Definition norm (s : str) : str :=
  let s := lower s in
  let s := sub_ws s in
  strip s.

Definition _make_key (nombre direccion : str) : str * str :=
  (norm nombre, norm direccion).

(** The deduplication loop of [expand_search_term]: [seen] is the set of
    normalised terms already kept. *)
Fixpoint unique_terms (seen : gset str) (ordered : list str) : list str :=
  match ordered with
  | [] => []
  | term :: rest =>
    let normalized := _normalize_text term in
    if decide (normalized ∈ seen)
    then unique_terms seen rest
    else term :: unique_terms ({[normalized]} ∪ seen) rest
  end.

(** The condition of the [if] inside the loop over [self.sinonimos]. *)
Definition term_matches (rubro_norm : str) (key : str) (synonyms : list str) : bool :=
  let key_norm := _normalize_text key in
  let synonyms_norm := map _normalize_text synonyms in
  bool_decide (rubro_norm = key_norm)
  || bool_decide (rubro_norm ∈ synonyms_norm)
  || contains key_norm rubro_norm.

Fixpoint expand_over (items : list (str * list str)) (rubro : str) : list str :=
  match items with
  | [] => [rubro]
  | (key, synonyms) :: rest =>
    if term_matches (_normalize_text rubro) key synonyms
    then take 3 (unique_terms ∅ (strip rubro :: synonyms))
    else expand_over rest rubro
  end.

Definition expand_search_term (rubro : str) : list str :=
  expand_over sinonimos rubro.

Definition distritos_lima : list str :=
  [ U "Lima"; U "Miraflores"; U "San Isidro"; U "Santiago de Surco"; U "La Molina";
    U "San Borja"; U "Barranco"; U "San Miguel"; U "Pueblo Libre"; U "Jesus Maria";
    U "Magdalena del Mar"; U "Lince"; U "Breña"; U "Rimac"; U "San Luis";
    U "Chorrillos"; U "Ate"; U "Callao"; U "Los Olivos"; U "San Martin de Porres";
    U "Independencia"; U "Comas"; U "Villa El Salvador"; U "Villa Maria del Triunfo";
    U "San Juan de Lurigancho"; U "San Juan de Miraflores"; U "El Agustino";
    U "Santa Anita"; U "La Victoria"; U "Carabayllo"; U "Puente Piedra"; U "Surquillo" ].

Definition _build_location_terms (departamento pais : str) : list str :=
  let departamento_norm := lower (strip departamento) in
  if bool_decide (departamento_norm = U "lima")
  then map (λ distrito, distrito ++ U ", Lima, " ++ pais) distritos_lima
  else [departamento ++ U ", " ++ pais].

End Scraper_text.

(** ** Session state of a [GoogleMapsScraper] object *)

Record BusinessRecord := {
  nombre : str; direccion : str; telefono : str; rating : str; reviews : str;
  estado : str; correo : str; sitio_web : str; departamento : str
}.

(** The messages of the log events the modelled code emits (the f-strings
    of the source, by shape and arguments). *)
Inductive message :=
| Termino (term_idx n_terms loc_idx n_locs : nat) (search_term location : str)
| Cargando_pagina (intento : nat)
| Pagina_cargada
| Error_cargando_pagina
| Cargando_resultados
| Suficientes_resultados (current : Z)
| Cargados (current : Z)
| Total_encontrados (final_count : Z)
| Error_en_scroll
| Avance (extraidos : nat)
| Scraping_pausado
| Scraping_reanudado
| Scraping_detenido.

Inductive log_type := info | success | error.

(** What [_emit_progress] hands to the progress callback.  The
    [percentage] entry of a progress event is a floating-point quotient and
    is left out. *)
Inductive event :=
| Log (msg : message) (type : log_type)
| Progress (current total : nat)
| Result (data : BusinessRecord) (index : nat).

Record Scraper := {
  is_running : bool;
  is_paused : bool;
  results : list BusinessRecord;
  _seen_keys : gset (str * str);
  emitted : list event
}.

(** [GoogleMapsScraper.__init__] *)
Definition new_scraper : Scraper :=
  {| is_running := false; is_paused := false; results := []; _seen_keys := ∅;
     emitted := [] |}.

Definition _emit_progress (e : event) (s : Scraper) : Scraper :=
  {| is_running := is_running s; is_paused := is_paused s; results := results s;
     _seen_keys := _seen_keys s; emitted := emitted s ++ [e] |}.

(** [pause], [resume], [stop] *)
Definition pause (s : Scraper) : Scraper :=
  _emit_progress (Log Scraping_pausado info)
    {| is_running := is_running s; is_paused := true; results := results s;
       _seen_keys := _seen_keys s; emitted := emitted s |}.

Definition resume (s : Scraper) : Scraper :=
  _emit_progress (Log Scraping_reanudado success)
    {| is_running := is_running s; is_paused := false; results := results s;
       _seen_keys := _seen_keys s; emitted := emitted s |}.

Definition stop (s : Scraper) : Scraper :=
  _emit_progress (Log Scraping_detenido info)
    {| is_running := false; is_paused := false; results := results s;
       _seen_keys := _seen_keys s; emitted := emitted s |}.

(** The first four statements of [scrape]. *)
Definition scrape_begin (s : Scraper) : Scraper :=
  {| is_running := true; is_paused := false; results := []; _seen_keys := ∅;
     emitted := emitted s |}.

(** ** [_wait_if_paused] *)

(** [flags k] are [is_paused] and [is_running] at the [k]-th test of the
    loop condition; the result is the number of sleeps of 0.4 seconds.
    [fuel] bounds the number of tests; [None] means it ran out. *)
Fixpoint _wait_if_paused (fuel : nat) (flags : nat → bool * bool) (polls : nat)
    : option nat :=
  match fuel with
  | O => None
  | S fuel' =>
    let '(paused, running) := flags polls in
    if paused && running then _wait_if_paused fuel' flags (S polls) else Some polls
  end.

(** ** The scroll loop ([_scroll_extensive]) *)

Local Open Scope Z_scope.

(** What the page answers during one pass through the [while] loop. *)
Record observation := {
  running_now : bool;     (* [self.is_running] when the loop condition is tested *)
  count_now : option Z;   (* [locator(...).count()]; [None] when the call raises *)
  wait_flags : nat → bool * bool;
                          (* [is_paused] and [is_running] at each test made by
                             [_wait_if_paused] in this pass *)
  scroll_ok : bool        (* [page.evaluate(...)] returns *)
}.

Definition max_no_change : nat := 8.
Definition max_scrolls : nat := 100.

Record scroll_state := {
  previous : Z;
  no_change_count : nat;
  scroll_count : nat;
  scroll_log : list event
}.

Inductive scroll_exit :=
| cap_reached          (* [scroll_count < max_scrolls] is false *)
| no_change_limit      (* [no_change_count < max_no_change] is false *)
| not_running          (* [self.is_running] is false *)
| enough_results       (* [break]: [current >= max_results] *)
| driver_raised.       (* an exception reaches the [except] clause *)

Definition say (e : event) (st : scroll_state) : scroll_state :=
  {| previous := previous st; no_change_count := no_change_count st;
     scroll_count := scroll_count st; scroll_log := scroll_log st ++ [e] |}.

(** One pass of the loop body after a successful scroll: the counters
    are updated from [current]. *)
Definition after_scroll (current : Z) (st : scroll_state) : scroll_state :=
  if current =? previous st
  then {| previous := previous st; no_change_count := S (no_change_count st);
          scroll_count := S (scroll_count st); scroll_log := scroll_log st |}
  else {| previous := current; no_change_count := 0;
          scroll_count := S (scroll_count st);
          scroll_log := if current mod 10 =? 0
                        then scroll_log st ++ [Log (Cargados current) info]
                        else scroll_log st |}.

(** The [while] loop.  The pass whose loop test sees [scroll_count = i]
    reads [env i].  After the count is read the pass awaits
    [_wait_if_paused], which tests the flags at most [patience] times: the
    result is [None] when a wait has not returned by then (while the
    session stays paused and running it never does), or when [fuel], which
    bounds the number of passes, ran out. *)
Fixpoint scroll_loop (patience fuel : nat) (env : nat → observation) (max_results : Z)
    (st : scroll_state) : option (scroll_exit * scroll_state) :=
  match fuel with
  | O => None
  | S fuel' =>
    let obs := env (scroll_count st) in
    if negb (scroll_count st <? max_scrolls)%nat then Some (cap_reached, st)
    else if negb (no_change_count st <? max_no_change)%nat then Some (no_change_limit, st)
    else if negb (running_now obs) then Some (not_running, st)
    else match count_now obs with
         | None => Some (driver_raised, st)
         | Some current =>
           match _wait_if_paused patience (wait_flags obs) 0 with
           | None => None
           | Some _ =>
             if current >=? max_results
             then Some (enough_results,
                        say (Log (Suficientes_resultados current) success) st)
             else if negb (scroll_ok obs) then Some (driver_raised, st)
             else scroll_loop patience fuel' env max_results (after_scroll current st)
           end
         end
  end.

Definition scroll_start : scroll_state :=
  {| previous := 0; no_change_count := 0; scroll_count := 0;
     scroll_log := [Log Cargando_resultados info] |}.

(** [_scroll_extensive]: [feed_found] is the outcome of
    [wait_for_selector]; the count read after the loop is [env] at the
    final [scroll_count].  The result is the way the loop ended, the
    number of scrolls performed and the events emitted; it is [None] when
    a pause wait of the loop has not returned after [patience] tests. *)
Definition _scroll_extensive (patience : nat) (feed_found : bool)
    (env : nat → observation) (max_results : Z)
    : option (scroll_exit * nat * list event) :=
  if negb feed_found
  then Some (driver_raised, 0%nat, [Log Cargando_resultados info; Log Error_en_scroll error])
  else
    match scroll_loop patience (S max_scrolls) env max_results scroll_start with
    | None => None
    | Some (driver_raised, st) =>
      Some (driver_raised, scroll_count st, scroll_log st ++ [Log Error_en_scroll error])
    | Some (why, st) =>
      match count_now (env (scroll_count st)) with
      | Some final_count =>
        Some (why, scroll_count st,
              scroll_log st ++ [Log (Total_encontrados final_count) success])
      | None =>
        Some (driver_raised, scroll_count st, scroll_log st ++ [Log Error_en_scroll error])
      end
    end.

Local Close Scope Z_scope.

(** ** Page loading with retries and the drive loop ([scrape]) *)

Definition retry_count : nat := 3.

(** The observable actions of the drive loop, in program order;
    [Sleep] is [asyncio.sleep] with its argument in milliseconds. *)
Inductive io :=
| Emit (e : event)
| WaitIfPaused
| PageGoto (url : str)
| Sleep (millis : N)
| ScrollExtensive
| ExtractBusinessData.

(** The [for attempt in range(1, self.retry_count + 1)] loop; [ok attempt]
    tells whether [page.goto] returns at that attempt. *)
Fixpoint load_page (ok : nat → bool) (url : str) (attempts : list nat) : list io :=
  match attempts with
  | [] => []
  | attempt :: later =>
    Emit (Log (Cargando_pagina attempt) info) :: PageGoto url ::
    (if ok attempt
     then [Sleep 3000; Emit (Log Pagina_cargada success)]
     else if (attempt <? retry_count)%nat
          then Sleep 2000 :: load_page ok url later
          else Emit (Log Error_cargando_pagina error) :: load_page ok url later)
  end.

Definition search_url (search_term location : str) : str :=
  let search_query := search_term ++ U " en " ++ location in
  U "https://www.google.com/maps/search/" ++ replace (U " ") (U "+") search_query.

(** What the environment decides during a crawl: the outcome of every
    [page.goto] and the value of [self.is_running] at each place the loop
    reads it.  Locations and terms are numbered from 1 as by [enumerate]. *)
Record crawl_oracle := {
  goto_ok : nat → nat → nat → bool;
  running_at_location : nat → bool;
  running_at_term : nat → nat → bool;
  running_after_scroll : nat → nat → bool
}.

(** The body of the inner loop after the two [is_running] tests;
    [n_terms] and [n_locs] are the lengths of the two lists of the plan. *)
Definition visit (o : crawl_oracle) (n_terms n_locs loc_idx term_idx : nat)
    (location search_term : str) : list io :=
  WaitIfPaused ::
  (if (1 <? n_terms)%nat || (1 <? n_locs)%nat
   then [Emit (Log (Termino term_idx n_terms loc_idx n_locs search_term location) info)]
   else []) ++
  load_page (goto_ok o loc_idx term_idx) (search_url search_term location)
            (seq 1 retry_count)
  ++ ScrollExtensive ::
  (if running_after_scroll o loc_idx term_idx then [ExtractBusinessData] else []).

Fixpoint terms_loop (o : crawl_oracle) (n_terms n_locs loc_idx : nat) (location : str)
    (term_idx : nat) (search_terms : list str) : list io :=
  match search_terms with
  | [] => []
  | search_term :: later =>
    if negb (running_at_term o loc_idx term_idx) then []
    else
      let here := visit o n_terms n_locs loc_idx term_idx location search_term in
      if running_after_scroll o loc_idx term_idx
      then here ++ terms_loop o n_terms n_locs loc_idx location (S term_idx) later
      else here
  end.

Fixpoint locations_loop (o : crawl_oracle) (search_terms : list str) (n_locs : nat)
    (loc_idx : nat) (location_terms : list str) : list io :=
  match location_terms with
  | [] => []
  | location :: later =>
    if negb (running_at_location o loc_idx) then []
    else terms_loop o (length search_terms) n_locs loc_idx location 1 search_terms
         ++ locations_loop o search_terms n_locs (S loc_idx) later
  end.

(** The two nested [for] loops of [scrape]. *)
Definition drive (o : crawl_oracle) (search_terms location_terms : list str) : list io :=
  locations_loop o search_terms (length location_terms) 1 location_terms.

(** ** The extraction pool ([_extract_business_data], [process_link]) *)

Inductive field :=
| f_nombre | f_direccion | f_telefono | f_rating | f_reviews | f_estado
| f_sitio_web | f_correo.

(** The order in which [_get_business_details] reads the fields. *)
Definition next_field (f : field) : option field :=
  match f with
  | f_nombre => Some f_direccion
  | f_direccion => Some f_telefono
  | f_telefono => Some f_rating
  | f_rating => Some f_reviews
  | f_reviews => Some f_estado
  | f_estado => Some f_sitio_web
  | f_sitio_web => Some f_correo
  | f_correo => None
  end.

(** The outcome of an awaited driver call.  A call that returns [None]
    is [Returns []]: the source only tests the value for truth.  For the
    reviews and the email, the value is the text left by the regular
    expressions of the source. *)
Inductive reply := Returns (v : str) | Raises.

Definition empty_data (depto : str) : BusinessRecord :=
  {| nombre := []; direccion := []; telefono := []; rating := []; reviews := [];
     estado := []; correo := []; sitio_web := []; departamento := depto |}.

Definition set_field (f : field) (v : str) (d : BusinessRecord) : BusinessRecord :=
  {| nombre := if f is f_nombre then v else nombre d;
     direccion := if f is f_direccion then v else direccion d;
     telefono := if f is f_telefono then v else telefono d;
     rating := if f is f_rating then v else rating d;
     reviews := if f is f_reviews then v else reviews d;
     estado := if f is f_estado then v else estado d;
     correo := if f is f_correo then v else correo d;
     sitio_web := if f is f_sitio_web then v else sitio_web d;
     departamento := departamento d |}.

(** What one [try] block of [_get_business_details] stores when its read
    returns [v]. *)
Definition store (f : field) (v : str) (d : BusinessRecord) : BusinessRecord :=
  match f with
  | f_nombre => set_field f_nombre v d
  | f_direccion =>
    if v is [] then d
    else set_field f_direccion
           (replace (U "Address: ") []
              (replace (U "Dirección: ") [] (replace (U "Dirección: ") [] v))) d
  | f_telefono =>
    if v is [] then d
    else set_field f_telefono (replace (U "Phone: ") [] (replace (U "Teléfono: ") [] v)) d
  | f_rating => if v is [] then d else set_field f_rating (strip v) d
  | _ => if v is [] then d else set_field f v d
  end.

Section Extraction.
Context {L : Lowercase}.
Variable max_results : nat.
Variable depto : str.

(** The block of [process_link] between the return of
    [_get_business_details] and the [finally]: it contains no [await]. *)
Definition accept (data : BusinessRecord) (s : Scraper) : Scraper :=
  if nombre data is [] then s
  else
    let key := _make_key (nombre data) (direccion data) in
    if decide (key ∈ _seen_keys s) then s
    else
      let stored := results s ++ [data] in
      let n := length stored in
      {| is_running := is_running s; is_paused := is_paused s;
         results := stored;
         _seen_keys := {[key]} ∪ _seen_keys s;
         emitted := emitted s ++ [Result data n; Progress n max_results]
                    ++ (if (n mod 10 =? 0)%nat then [Log (Avance n) info] else []) |}.

(** Where a [process_link] coroutine is suspended.  [close_page] records
    whether a [CancelledError] is on its way out through the [finally];
    [finished] records whether the coroutine ended by one. *)
Inductive pc :=
| created                  (* not started *)
| acquiring                (* [async with sem], no free slot *)
| get_href                 (* [link_element.get_attribute("href")] *)
| new_page                 (* [page.context.new_page()] *)
| goto_href                (* [new_page.goto(href, ...)] *)
| settle                   (* [asyncio.sleep(1.5)] *)
| read_field (f : field) (data : BusinessRecord)
| close_page (cancelling : bool)   (* [new_page.close()] in the [finally] *)
| finished (by_cancel : bool).

Record task := { at_pc : pc; must_cancel : bool }.

Record pool := {
  session : Scraper;
  free_slots : nat;       (* value of the [Semaphore(5)] of the batch *)
  tasks : list task;
  loop_alive : bool       (* the task running [scrape] has not been cancelled *)
}.

Definition enter_sem (s : Scraper) (free : nat) : pc * Scraper * nat :=
  match free with
  | O => (acquiring, s, free)
  | S k => (get_href, s, k)
  end.

(** The coroutine [process_link], one resumption at a time.  The event
    loop resumes it where it is suspended ([here]): the awaited call raises
    [CancelledError] when [cancelled], otherwise it answers [r]; the
    coroutine runs up to its next [await].  A [CancelledError]
    passes [except Exception] and is caught by a bare [except]. *)
Definition process_link (r : reply) (cancelled : bool) (s : Scraper) (free : nat)
    (here : pc) : pc * Scraper * nat :=
  match here with
  | created =>
    if cancelled then (finished true, s, free)
    else if negb (is_running s) then (finished false, s, free)
    else enter_sem s free
  | acquiring =>
    if cancelled then (finished true, s, free) else enter_sem s free
  | get_href =>
    if cancelled then (finished true, s, S free)
    else match r with
         | Returns (_ :: _) => (new_page, s, free)
         | _ => (finished false, s, S free)
         end
  | new_page =>
    if cancelled then (finished true, s, S free)
    else match r with
         | Returns _ => (goto_href, s, free)
         | Raises => (finished false, s, S free)
         end
  | goto_href =>
    if cancelled then (close_page true, s, free)
    else match r with
         | Returns _ => (settle, s, free)
         | Raises => (close_page false, s, free)
         end
  | settle =>
    if cancelled then (close_page true, s, free)
    else (read_field f_nombre (empty_data depto), s, free)
  | read_field f data =>
    let data :=
      if cancelled then data
      else match r with Returns v => store f v data | Raises => data end in
    match next_field f with
    | Some g => (read_field g data, s, free)
    | None => (close_page false, accept data s, free)
    end
  | close_page cancelling =>
    (* an exception of [close()] replaces the [CancelledError] on its way
       out and is swallowed by [except Exception] *)
    let by_cancel :=
      if cancelled then true
      else match r with Returns _ => cancelling | Raises => false end in
    (finished by_cancel, s, S free)
  | finished by_cancel => (finished by_cancel, s, free)
  end.

Definition is_finished (t : task) : bool :=
  if at_pc t is finished _ then true else false.

Definition ended_by_cancel (t : task) : bool :=
  if at_pc t is finished true then true else false.

Inductive action :=
| Run (i : nat) (r : reply)   (* the event loop resumes task [i] *)
| Gather (links : nat)        (* [_extract_business_data] with [links] candidates *)
| Stop                        (* [GoogleMapsScraper.stop()] *)
| Pause
| Resume
| CancelScrape.               (* [scraper_task.cancel()] *)

Definition with_session (s : Scraper) (p : pool) : pool :=
  {| session := s; free_slots := free_slots p; tasks := tasks p;
     loop_alive := loop_alive p |}.

Definition step (a : action) (p : pool) : option pool :=
  match a with
  | Run i r =>
    match tasks p !! i with
    | None => None
    | Some t =>
      let '(next, s', free') :=
        process_link r (must_cancel t) (session p) (free_slots p) (at_pc t) in
      Some {| session := s'; free_slots := free';
              tasks := <[i := {| at_pc := next; must_cancel := false |}]> (tasks p);
              loop_alive := loop_alive p |}
    end
  | Gather links =>
    if loop_alive p && forallb is_finished (tasks p)
    then
      let remaining := (max_results - length (results (session p)))%nat in
      let total := min links remaining in
      Some {| session := session p; free_slots := 5;
              tasks := replicate total {| at_pc := created; must_cancel := false |};
              loop_alive := true |}
    else None
  | Stop => Some (with_session (stop (session p)) p)
  | Pause => Some (with_session (pause (session p)) p)
  | Resume => Some (with_session (resume (session p)) p)
  | CancelScrape =>
    Some {| session := session p; free_slots := free_slots p;
            tasks := map (λ t, {| at_pc := at_pc t;
                                  must_cancel := negb (is_finished t) |}) (tasks p);
            loop_alive := false |}
  end.

Fixpoint run (acts : list action) (p : pool) : option pool :=
  match acts with
  | [] => Some p
  | a :: later =>
    match step a p with
    | Some p' => run later p'
    | None => None
    end
  end.

(** The task that runs [scrape] has ended: it was cancelled and the
    [gather] it awaited has raised, which [gather] does as soon as one
    coroutine of the batch has ended by [CancelledError], or when all have
    ended.  From then on [await scraper_task] in [stop_scraper] returns. *)
Definition scrape_ended (p : pool) : bool :=
  negb (loop_alive p)
  && (existsb ended_by_cancel (tasks p) || forallb is_finished (tasks p)).

(** The pool when [scrape] has executed its first statements on a new
    scraper object. *)
Definition pool_start : pool :=
  {| session := scrape_begin new_scraper; free_slots := 5; tasks := [];
     loop_alive := true |}.

End Extraction.

(** ** The command surface ([main.py]) *)

Module Main.

Record ScraperConfig := {
  rubro : str;
  departamento : str;
  pais : str;
  cantidad : option Z;
  headless : bool;
  expanded_search : bool
}.

Record ScraperResponse := { status : string; message : str }.

(** A handler either returns its body or raises [HTTPException]. *)
Inductive http (A : Type) :=
| Ok (body : A)
| HTTPException (status_code : nat) (detail : string).
Arguments Ok {A} body.
Arguments HTTPException {A} status_code detail.

(** The state of the [asyncio.Task] held in [scraper_task]. *)
Inductive task_state := scheduled | done | cancelled.

(** The module-level variables [scraper] and [scraper_task]. *)
Record Globals := {
  scraper : option Scraper;
  scraper_task : option task_state
}.

Definition initial : Globals := {| scraper := None; scraper_task := None |}.

Definition cancel (t : task_state) : task_state :=
  match t with
  | scheduled => cancelled
  | _ => t
  end.

Definition start_scraper (config : ScraperConfig) (g : Globals)
    : http ScraperResponse * Globals :=
  match scraper g with
  | Some s =>
    if is_running s
    then (HTTPException 400 "Scraper is already running", g)
    else (Ok {| status := "started";
                message := U "Scraping iniciado para '" ++ rubro config ++ U "' en "
                           ++ departamento config |},
          {| scraper := Some new_scraper; scraper_task := Some scheduled |})
  | None =>
    (Ok {| status := "started";
           message := U "Scraping iniciado para '" ++ rubro config ++ U "' en "
                      ++ departamento config |},
     {| scraper := Some new_scraper; scraper_task := Some scheduled |})
  end.

Definition pause_scraper (g : Globals) : http ScraperResponse * Globals :=
  match scraper g with
  | Some s =>
    if is_running s
    then (Ok {| status := "paused"; message := U "Scraping pausado" |},
          {| scraper := Some (pause s); scraper_task := scraper_task g |})
    else (HTTPException 400 "No active scraper to pause", g)
  | None => (HTTPException 400 "No active scraper to pause", g)
  end.

Definition resume_scraper (g : Globals) : http ScraperResponse * Globals :=
  match scraper g with
  | Some s =>
    if is_running s
    then (Ok {| status := "resumed"; message := U "Scraping reanudado" |},
          {| scraper := Some (resume s); scraper_task := scraper_task g |})
    else (HTTPException 400 "No active scraper to resume", g)
  | None => (HTTPException 400 "No active scraper to resume", g)
  end.

(** The handler is suspended in [await scraper_task] until the task has
    ended. *)
Definition awaits (t : option task_state) : bool :=
  if t is Some scheduled then true else false.

(** [stop_scraper].  After [scraper.stop()] and [scraper_task.cancel()]
    the handler awaits the task.  A task that has ended is awaited without
    suspension.  While the task is still running the handler is suspended
    until the task has ended by the cancellation, and [ending] is what
    happens to the scraper object in that time (the extraction coroutines
    in flight run on, see [process_link]); the state returned is the one
    in which the handler answers. *)
Definition stop_scraper (ending : Scraper → Scraper) (g : Globals)
    : http ScraperResponse * Globals :=
  match scraper g with
  | Some s =>
    (Ok {| status := "stopped"; message := U "Scraping detenido" |},
     {| scraper := Some (if awaits (scraper_task g) then ending (stop s) else stop s);
        scraper_task := cancel <$> scraper_task g |})
  | None => (HTTPException 400 "No active scraper to stop", g)
  end.

Record Status := { st_is_running : bool; st_is_paused : bool; results_count : nat }.

Definition get_status (g : Globals) : http Status :=
  match scraper g with
  | None => Ok {| st_is_running := false; st_is_paused := false; results_count := 0 |}
  | Some s =>
    Ok {| st_is_running := is_running s; st_is_paused := is_paused s;
          results_count := length (results s) |}
  end.

Definition get_results (g : Globals) : http (list BusinessRecord) :=
  match scraper g with
  | None => Ok []
  | Some s => Ok (results s)
  end.

End Main.

(** ** Specification-side definitions *)

(** [s.split()]: the maximal runs of non-whitespace code points. *)
Fixpoint split (s : str) : list str :=
  match s with
  | [] => []
  | c :: t =>
    if isspace c then split t
    else match t with
         | [] => [[c]]
         | d :: _ =>
           if isspace d then [c] :: split t
           else match split t with
                | w :: ws => (c :: w) :: ws
                | [] => [[c]]
                end
         end
  end.

(** [" ".join(ws)] *)
Fixpoint join_sp (ws : list str) : str :=
  match ws with
  | [] => []
  | [w] => w
  | w :: ws' => w ++ SPACE :: join_sp ws'
  end.

Definition starts_space (s : str) : bool :=
  match s with
  | c :: _ => isspace c
  | [] => false
  end.

Definition ends_space (s : str) : bool := starts_space (rev s).

(** The accent table of [_normalize_text] on one code point. *)
Definition deaccent (c : N) : N :=
  if c =? 225 then 97 else if c =? 233 then 101 else if c =? 237 then 105
  else if c =? 243 then 111 else if c =? 250 then 117 else if c =? 241 then 110
  else c.

(** Keep the first element of every class of [f]. *)
Fixpoint nub_by {A B} `{EqDecision B} (f : A → B) (l : list A) : list A :=
  match l with
  | [] => []
  | x :: t => x :: filter (λ y, f y ≠ f x) (nub_by f t)
  end.

(** The count read in pass [i] (0 when the read fails), and the count
    recorded before pass [j]: the one of the pass before, 0 at the start. *)
Definition count_at (env : nat → observation) (i : nat) : Z :=
  default 0%Z (count_now (env i)).

Definition prev_count (env : nat → observation) (j : nat) : Z :=
  match j with
  | O => 0%Z
  | S i => count_at env i
  end.

(** The number of passes just before pass [j] whose count was equal to
    the count recorded before them. *)
Fixpoint unchanged_streak (env : nat → observation) (j : nat) : nat :=
  match j with
  | O => O
  | S i =>
    if (count_at env i =? prev_count env i)%Z then S (unchanged_streak env i) else O
  end.

(** The streak as the specification words it: the passes just before
    pass [j] in which the count did not grow. *)
Fixpoint no_growth_streak (env : nat → observation) (j : nat) : nat :=
  match j with
  | O => O
  | S i =>
    if (count_at env i <=? prev_count env i)%Z then S (no_growth_streak env i) else O
  end.

(** The pause wait of pass [i] returns within [patience] tests: one of
    them finds the session not paused or not running. *)
Definition wait_returns (patience : nat) (env : nat → observation) (i : nat) : Prop :=
  ∃ k, (k < patience)%nat
       ∧ (wait_flags (env i) k).1 && (wait_flags (env i) k).2 = false.

(** The pause wait of pass [i] never returns: every test finds the session
    paused and running. *)
Definition wait_blocks (env : nat → observation) (i : nat) : Prop :=
  ∀ k, wait_flags (env i) k = (true, true).

(** Pass [j] scrolls and the loop goes on to pass [j + 1]. *)
Definition continues (env : nat → observation) (target : Z) (j : nat) : Prop :=
  (j < max_scrolls)%nat
  ∧ (unchanged_streak env j < max_no_change)%nat
  ∧ running_now (env j) = true
  ∧ ∃ current, count_now (env j) = Some current
               ∧ (current < target)%Z ∧ scroll_ok (env j) = true.

(** Why the loop left at pass [k]. *)
Definition left_because (env : nat → observation) (target : Z) (k : nat)
    (why : scroll_exit) : Prop :=
  match why with
  | cap_reached => k = max_scrolls
  | no_change_limit =>
    (k < max_scrolls)%nat ∧ unchanged_streak env k = max_no_change
  | not_running =>
    (k < max_scrolls)%nat ∧ (unchanged_streak env k < max_no_change)%nat
    ∧ running_now (env k) = false
  | enough_results =>
    (k < max_scrolls)%nat ∧ (unchanged_streak env k < max_no_change)%nat
    ∧ running_now (env k) = true
    ∧ ∃ current, count_now (env k) = Some current ∧ (target ≤ current)%Z
  | driver_raised =>
    (k < max_scrolls)%nat ∧ (unchanged_streak env k < max_no_change)%nat
    ∧ running_now (env k) = true
    ∧ (count_now (env k) = None
       ∨ ∃ current, count_now (env k) = Some current
                    ∧ (current < target)%Z ∧ scroll_ok (env k) = false)
  end.

(** The scroll and extraction stages of a run of the drive loop. *)
Fixpoint stages (tr : list io) : list io :=
  match tr with
  | [] => []
  | ScrollExtensive :: later => ScrollExtensive :: stages later
  | ExtractBusinessData :: later => ExtractBusinessData :: stages later
  | _ :: later => stages later
  end.

(** The number of [page.goto] calls of a run. *)
Fixpoint gotos (tr : list io) : nat :=
  match tr with
  | [] => 0
  | PageGoto _ :: later => S (gotos later)
  | _ :: later => gotos later
  end.

(** The same crawl with other outcomes of the page loads. *)
Definition with_goto (ok : nat → nat → nat → bool) (o : crawl_oracle) : crawl_oracle :=
  {| goto_ok := ok; running_at_location := running_at_location o;
     running_at_term := running_at_term o;
     running_after_scroll := running_after_scroll o |}.

(** Nobody stops the session during the crawl. *)
Definition never_stopped (o : crawl_oracle) : Prop :=
  (∀ i, running_at_location o i = true)
  ∧ (∀ i j, running_at_term o i j = true)
  ∧ (∀ i j, running_after_scroll o i j = true).

(** A word: non-empty and free of whitespace. *)
Definition is_word (w : str) : Prop := w ≠ [] ∧ forallb nonspace w = true.

(** The counters at the loop test of pass [j]. *)
Definition scroll_inv (env : nat → observation) (target : Z) (st : scroll_state) : Prop :=
  previous st = prev_count env (scroll_count st)
  ∧ no_change_count st = unchanged_streak env (scroll_count st)
  ∧ (no_change_count st ≤ max_no_change)%nat
  ∧ (scroll_count st ≤ max_scrolls)%nat
  ∧ ∀ i, (i < scroll_count st)%nat → continues env target i.

(** ** Sample inputs *)

Definition botica_central : BusinessRecord :=
  set_field f_direccion (U "Av. Principal 123")
    (set_field f_nombre (U "Botica Central") (empty_data (U "Lima"))).

Definition botica_central' : BusinessRecord :=
  set_field f_direccion (U "av. principal  123 ")
    (set_field f_nombre (U "BOTICA  Central") (empty_data (U "Lima"))).

(** The coroutine of task [i] runs from its creation to the read of the
    name, then reads [name] and [address]; the other reads time out. *)
Definition extract_until_name (i : nat) : list action :=
  [Run i (Returns []); Run i (Returns (U "/maps/place/x")); Run i (Returns []);
   Run i (Returns []); Run i (Returns [])].

Definition read_rest (i : nat) : list action :=
  [Run i Raises; Run i Raises; Run i Raises; Run i Raises; Run i Raises; Run i Raises].

(** Two coroutines extract the same business at the same time; the
    second page shows it in another case and spacing. *)
Definition two_boticas : list action :=
  Gather 2 :: extract_until_name 0 ++ extract_until_name 1
  ++ [Run 1 (Returns (U "BOTICA  Central")); Run 0 (Returns (U "Botica Central"));
      Run 0 (Returns (U "Av. Principal 123")); Run 1 (Returns (U "av. principal  123 "))]
  ++ read_rest 1 ++ read_rest 0 ++ [Run 0 (Returns []); Run 1 (Returns [])].

(** Two pages show one business, one of them without the accents. *)
Definition two_cafes : list action :=
  Gather 2
  :: extract_until_name 0
  ++ [Run 0 (Returns (U "Café")); Run 0 (Returns (U "Av. Perú 123"))]
  ++ read_rest 0 ++ [Run 0 (Returns [])]
  ++ extract_until_name 1
  ++ [Run 1 (Returns (U "Cafe")); Run 1 (Returns (U "Av. Peru 123"))]
  ++ read_rest 1 ++ [Run 1 (Returns [])].

(** Two candidates are being extracted: the first is loading its page,
    the second has read its name and the read of its address is in flight
    when the stop command arrives ([stop()], then the cancellation of the
    task that runs [scrape]).  The first coroutine is cancelled at its
    [goto] and closes its page. *)
Definition stop_during_address : list action :=
  [Gather 2;
   Run 0 (Returns []); Run 0 (Returns (U "/maps/place/a")); Run 0 (Returns [])]
  ++ extract_until_name 1 ++ [Run 1 (Returns (U "Botica Central"))]
  ++ [Stop; CancelScrape; Run 0 (Returns []); Run 0 (Returns [])].

(** The second coroutine goes on: the cancelled read and the reads on the
    closing browser leave their fields empty. *)
Definition after_the_stop : list action :=
  Run 1 (Returns (U "Av. Principal 123")) :: read_rest 1 ++ [Run 1 Raises].

(** The page shows 1000 results and one fewer after every scroll. *)
Definition shrinking_feed (i : nat) : observation :=
  {| running_now := true; count_now := Some (1000 - Z.of_nat i)%Z;
     wait_flags := λ _, (false, true); scroll_ok := true |}.

(** The page shows 7 results and never more. *)
Definition stalled_feed (i : nat) : observation :=
  {| running_now := true; count_now := Some 7%Z;
     wait_flags := λ _, (false, true); scroll_ok := true |}.

(** The page grows by 5 results with every scroll; the session is paused
    during the third pass and nobody resumes or stops it. *)
Definition paused_feed (i : nat) : observation :=
  {| running_now := true; count_now := Some (5 * Z.of_nat i)%Z;
     wait_flags := λ _, (bool_decide (i = 2%nat), true); scroll_ok := true |}.

(** Every page load fails and nobody stops the session. *)
Definition all_loads_fail : crawl_oracle :=
  {| goto_ok := λ _ _ _, false; running_at_location := λ _, true;
     running_at_term := λ _ _, true; running_after_scroll := λ _ _, true |}.

(** A session that has run to its end: one record stored, not running. *)
Definition ended_session : Main.Globals :=
  {| Main.scraper :=
       Some {| is_running := false; is_paused := false;
               results := [botica_central];
               _seen_keys := {[ (U "botica central", U "av. principal 123") ]};
               emitted := [] |};
     Main.scraper_task := Some Main.done |}.


Definition hotel_cusco : Main.ScraperConfig :=
  {| Main.rubro := U "hotel"; Main.departamento := U "Cusco"; Main.pais := U "Perú";
     Main.cantidad := Some 20%Z; Main.headless := true; Main.expanded_search := true |}.

Section Spec_side.
Context {L : Lowercase}.

(** The DedupKey as the specification words it: lowercased, diacritics
    stripped (the accent table of [_normalize_text]), whitespace collapsed,
    trimmed. *)
Definition DedupKey_spec (name address : str) : str * str :=
  (strip (sub_ws (_normalize_text name)), strip (sub_ws (_normalize_text address))).

(** A category matches an entry of the synonym table: its normalised
    form is the normalised key, one of the normalised synonyms, or a
    substring of the normalised key. *)
Definition matches_key (rubro key : str) (synonyms : list str) : Prop :=
  _normalize_text rubro = _normalize_text key
  ∨ _normalize_text rubro ∈ map _normalize_text synonyms
  ∨ ∃ before after, _normalize_text key = before ++ _normalize_text rubro ++ after.

(** The DedupKey of a record, as [process_link] computes it. *)
Definition key_of (d : BusinessRecord) : str * str :=
  _make_key (nombre d) (direccion d).

(** Candidates handed to the insertion block one after the other. *)
Definition accept_all (max_results : nat) (ds : list BusinessRecord) (s : Scraper)
    : Scraper :=
  fold_left (λ s d, accept max_results d s) ds s.

(** The store holds no two records with the same key, and the key of
    every stored record has been entered in the set. *)
Definition store_ok (s : Scraper) : Prop :=
  NoDup (map key_of (results s)) ∧ ∀ d, d ∈ results s → key_of d ∈ _seen_keys s.

End Spec_side.

(** * Further code of the two modules *)

(** ** The plan of a session ([scrape]) *)


Section Plan.
Context {L : Lowercase}.

(** [search_terms] and the two loops of [scrape] on the plan it builds. *)
Definition search_terms_of (rubro : str) (expanded_search : bool) : list str :=
  if expanded_search then expand_search_term rubro else [rubro].

Definition crawl (o : crawl_oracle) (rubro depto pais : str) (expanded_search : bool)
    : list io :=
  drive o (search_terms_of rubro expanded_search) (_build_location_terms depto pais).

End Plan.

(** ** The export ([export_to_excel], [export_results]) *)

Inductive cell := Number (n : Z) | Text (s : str).

(** The worksheet is a map from (row, column) to the value of the cell;
    styles and the data type that openpyxl infers for a text (string,
    formula, error code) are left out. *)

(** The exceptions of the export. *)
Inductive exception :=
| ValueError (text : string)
| IllegalCharacterError (value : str)   (* raised by openpyxl for [value] *)
| OtherError (text : string).           (* raised by the file system; its [str()] *)

(** An exception, or the value returned. *)
Inductive outcome (A : Type) :=
| Raised (e : exception)
| Returned (a : A).
Arguments Raised {A} e.
Arguments Returned {A} a.

#[global] Instance outcome_bind : MBind outcome :=
  λ A B f x, match x with Raised e => Raised e | Returned a => f a end.

Definition headers : list str :=
  [U "#"; U "Nombre"; U "Direccion"; U "Telefono"; U "Rating"; U "Reviews";
   U "Estado"; U "Correo"; U "Sitio Web"].

(** What openpyxl does to a string it binds to a cell
    ([Cell.check_string]): the value is cut to 32767 code points, and a
    control character left in it, other than tab, line feed and carriage
    return ([ILLEGAL_CHARACTERS_RE]), raises [IllegalCharacterError]. *)
Definition max_cell_length : nat := N.to_nat 32767.
Arguments max_cell_length : simpl never.

Definition illegal (c : N) : bool :=
  (c <=? 8) || ((11 <=? c) && (c <=? 12)) || ((14 <=? c) && (c <=? 31)).

Definition unwritable (value : str) : bool :=
  existsb illegal (take max_cell_length value).

(** [ws.cell(row=..., column=..., value=...)] for a string value *)
Definition ws_cell (row col : nat) (value : str) (ws : gmap (nat * nat) cell)
    : outcome (gmap (nat * nat) cell) :=
  if unwritable value
  then Raised (IllegalCharacterError (take max_cell_length value))
  else Returned (<[(row, col) := Text (take max_cell_length value)]> ws).

(** [for col, header in enumerate(headers, 1)] *)
Fixpoint write_headers (col : nat) (hs : list str) (ws : gmap (nat * nat) cell)
    : outcome (gmap (nat * nat) cell) :=
  match hs with
  | [] => Returned ws
  | header :: later =>
    ws ← ws_cell 1 col header ws; write_headers (S col) later ws
  end.

(** The body of [for idx, row_data in enumerate(self.results, 2)]; the
    first cell holds a number. *)
Definition write_row (idx : nat) (row_data : BusinessRecord) (ws : gmap (nat * nat) cell)
    : outcome (gmap (nat * nat) cell) :=
  let ws := <[(idx, 1%nat) := Number (Z.of_nat idx - 1)]> ws in
  ws ← ws_cell idx 2 (nombre row_data) ws;
  ws ← ws_cell idx 3 (direccion row_data) ws;
  ws ← ws_cell idx 4 (telefono row_data) ws;
  ws ← ws_cell idx 5 (rating row_data) ws;
  ws ← ws_cell idx 6 (reviews row_data) ws;
  ws ← ws_cell idx 7 (estado row_data) ws;
  ws ← ws_cell idx 8 (correo row_data) ws;
  ws_cell idx 9 (sitio_web row_data) ws.

Fixpoint write_rows (idx : nat) (rows : list BusinessRecord) (ws : gmap (nat * nat) cell)
    : outcome (gmap (nat * nat) cell) :=
  match rows with
  | [] => Returned ws
  | row_data :: later => ws ← write_row idx row_data ws; write_rows (S idx) later ws
  end.

Record exported := {
  filepath : str;
  filename : str;       (* also the text of the log event it emits *)
  sheet : gmap (nat * nat) cell
}.

Definition base_folder : str := U "resultados".

Section Workbook.
Variable join : str → str → str.           (* [os.path.join] *)
Variable fecha : str.                      (* [datetime.now().strftime(...)] *)
Variable makedirs_error : option string.   (* an exception of [os.path.exists] or
                                              [os.makedirs] *)
Variable save_error : option string.       (* an exception of [wb.save] *)

Definition export_to_excel (rubro depto : str) (s : Scraper) : outcome exported :=
  if results s is [] then Raised (ValueError "No hay resultados para exportar")
  else
    let rubro_clean := replace (U "/") (U "-") (replace (U " ") (U "_") (strip rubro)) in
    let rubro_folder := join base_folder rubro_clean in
    match makedirs_error with
    | Some text => Raised (OtherError text)
    | None =>
      let dept_clean := replace (U " ") (U "_") (strip depto) in
      let name := rubro_clean ++ U "-" ++ dept_clean ++ U "-" ++ fecha ++ U ".xlsx" in
      ws ← write_headers 1 headers ∅;
      ws ← write_rows 2 (results s) ws;
      match save_error with
      | Some text => Raised (OtherError text)
      | None =>
        Returned {| filepath := join rubro_folder name; filename := name; sheet := ws |}
      end
    end.

Variable path_exists : str → bool.         (* [os.path.exists] *)
Variable basename : str → str.             (* [os.path.basename] *)
Variable str_of_missing : string.          (* [str()] of the [HTTPException] raised
                                              inside the [try] *)
Variable str_of_illegal : str → string.    (* [str()] of an [IllegalCharacterError] *)

(** [str(e)] *)
Definition str_of_exception (e : exception) : string :=
  match e with
  | ValueError text | OtherError text => text
  | IllegalCharacterError value => str_of_illegal value
  end.

Record FileResponse := { path : str; download_name : str }.

(** [export_results] of [main.py] *)
Definition export_results (config : Main.ScraperConfig) (g : Main.Globals)
    : Main.http FileResponse :=
  match Main.scraper g with
  | None => Main.HTTPException 400 "No results to export"
  | Some s =>
    if results s is [] then Main.HTTPException 400 "No results to export"
    else
      match export_to_excel (Main.rubro config) (Main.departamento config) s with
      | Raised e => Main.HTTPException 500 (str_of_exception e)
      | Returned out =>
        if path_exists (filepath out)
        then Main.Ok {| path := filepath out; download_name := basename (filepath out) |}
        else Main.HTTPException 500 str_of_missing
      end
  end.

End Workbook.

(** ** The scrape task on the module state ([run_scraper]) *)

(** The first step of the task that [start_scraper] creates: [scrape]
    executes its first statements on the scraper object. *)
Definition task_started (g : Main.Globals) : Main.Globals :=
  {| Main.scraper := scrape_begin <$> Main.scraper g;
     Main.scraper_task := Main.scraper_task g |}.

(** ** Specification-side definitions for the further properties *)


(** A coroutine that holds a slot of the semaphore. *)
Definition holds_slot (t : task) : bool :=
  match at_pc t with
  | created | acquiring | finished _ => false
  | _ => true
  end.

(** A coroutine that has opened its page. *)
Definition has_page (here : pc) : bool :=
  match here with
  | goto_href | settle | read_field _ _ | close_page _ => true
  | _ => false
  end.

Definition count_tasks (P : task → bool) (ts : list task) : nat :=
  length (List.filter P ts).

(** The result events and the progress events of a list of events. *)
Fixpoint announced (es : list event) : list (BusinessRecord * nat) :=
  match es with
  | [] => []
  | Result data index :: later => (data, index) :: announced later
  | _ :: later => announced later
  end.

Fixpoint progress_of (es : list event) : list (nat * nat) :=
  match es with
  | [] => []
  | Progress current total :: later => (current, total) :: progress_of later
  | _ :: later => progress_of later
  end.

(** The stored records with their positions, counted from [first]. *)
Fixpoint numbered (first : nat) (rs : list BusinessRecord) : list (BusinessRecord * nat) :=
  match rs with
  | [] => []
  | r :: later => (r, first) :: numbered (S first) later
  end.


(** Free slots and slots held add up to the 5 of the semaphore. *)
Definition slot_inv (p : pool) : Prop :=
  (free_slots p + count_tasks holds_slot (tasks p) = 5)%nat.

(** The result and progress events are those of the stored records. *)
Definition events_inv (max_results : nat) (s : Scraper) : Prop :=
  announced (emitted s) = numbered 1 (results s)
  ∧ progress_of (emitted s)
    = map (λ n, (n, max_results)) (seq 1 (length (results s))).


(** The URLs of the first load attempts of a run, in order. *)
Fixpoint first_loads (tr : list io) : list str :=
  match tr with
  | Emit (Log (Cargando_pagina 1) _) :: PageGoto url :: later => url :: first_loads later
  | _ :: later => first_loads later
  | [] => []
  end.

(** The texts of a record in the order in which its row is written, and
    those of the store. *)
Definition texts_of (d : BusinessRecord) : list str :=
  [nombre d; direccion d; telefono d; rating d; reviews d; estado d; correo d;
   sitio_web d].

Definition all_texts (rs : list BusinessRecord) : list str := concat (map texts_of rs).

(** The cell the export is to write at a row and a column. *)
Definition expected_cell (rs : list BusinessRecord) (row col : nat) : option cell :=
  match row with
  | 0%nat => None
  | 1%nat => match col with 0%nat => None | S c => Text <$> headers !! c end
  | S (S i) =>
    match rs !! i with
    | None => None
    | Some d =>
      match col with
      | 0%nat => None
      | 1%nat => Some (Number (Z.of_nat i + 1))
      | S (S c) => (λ v, Text (take max_cell_length v)) <$> texts_of d !! c
      end
    end
  end.

(** The cell that the row of [d], written at row [idx], has in column
    [col]. *)
Definition row_cell (idx : nat) (d : BusinessRecord) (col : nat) : option cell :=
  match col with
  | 0%nat => None
  | 1%nat => Some (Number (Z.of_nat idx - 1))
  | S (S c) => (λ v, Text (take max_cell_length v)) <$> texts_of d !! c
  end.

(** The sheet after the writes of texts that openpyxl accepts. *)
Fixpoint fill_texts (row col : nat) (vs : list str) (ws : gmap (nat * nat) cell)
    : gmap (nat * nat) cell :=
  match vs with
  | [] => ws
  | v :: later =>
    fill_texts row (S col) later (<[(row, col) := Text (take max_cell_length v)]> ws)
  end.

Definition fill_row (idx : nat) (d : BusinessRecord) (ws : gmap (nat * nat) cell)
    : gmap (nat * nat) cell :=
  fill_texts idx 2 (texts_of d) (<[(idx, 1%nat) := Number (Z.of_nat idx - 1)]> ws).

Fixpoint fill_rows (idx : nat) (rows : list BusinessRecord) (ws : gmap (nat * nat) cell)
    : gmap (nat * nat) cell :=
  match rows with
  | [] => ws
  | d :: later => fill_rows (S idx) later (fill_row idx d ws)
  end.

(** A page that shows [c] results at every read. *)
Definition constant_feed (c : Z) (i : nat) : observation :=
  {| running_now := true; count_now := Some c;
     wait_flags := λ _, (false, true); scroll_ok := true |}.

(** ** Sample inputs for the further properties *)

(** Seven candidates whose coroutines have all been started. *)
Definition seven_started : list action :=
  Gather 7 :: map (λ i, Run i (Returns [])) (seq 0 7).


(** A session that ended with one record, and an export of it. *)
Definition one_record : Scraper :=
  {| is_running := false; is_paused := false; results := [botica_central];
     _seen_keys := {[ (U "botica central", U "av. principal 123") ]}; emitted := [] |}.

Definition posix_join (a b : str) : str := a ++ U "/" ++ b.

(** * Proofs *)

(** ** Code points and whitespace *)

Ltac bool_to_prop :=
  repeat (rewrite ?orb_true_iff, ?andb_true_iff, ?negb_true_iff, ?orb_false_iff,
            ?andb_false_iff, ?negb_false_iff, ?N.leb_le, ?N.leb_gt, ?N.eqb_eq, ?N.eqb_neq in * ).

Lemma isspace_true c :
  isspace c = true ↔
  9 ≤ c ≤ 13 ∨ 28 ≤ c ≤ 32 ∨ c = 133 ∨ c = 160 ∨ c = 5760 ∨ 8192 ≤ c ≤ 8202
  ∨ c = 8232 ∨ c = 8233 ∨ c = 8239 ∨ c = 8287 ∨ c = 12288.
Proof. unfold isspace. bool_to_prop. lia. Qed.

Lemma lower_cp_cases c :
  (lower_cp c = c + 32 ∧ (65 ≤ c ≤ 90 ∨ (192 ≤ c ≤ 222 ∧ c ≠ 215)))
  ∨ (lower_cp c = c ∧ ¬ (65 ≤ c ≤ 90 ∨ (192 ≤ c ≤ 222 ∧ c ≠ 215))).
Proof. unfold lower_cp. destruct (_ || _) eqn:E; bool_to_prop; lia. Qed.

Lemma lower_cp_space c : isspace c = true -> lower_cp c = c.
Proof. rewrite isspace_true. destruct (lower_cp_cases c); lia. Qed.

Lemma lower_cp_nonspace c : isspace c = false -> isspace (lower_cp c) = false.
Proof.
  rewrite <- !not_true_iff_false, !isspace_true.
  destruct (lower_cp_cases c) as [[-> ?]|[-> ?]]; lia.
Qed.

Lemma lower_cp_idem c : lower_cp (lower_cp c) = lower_cp c.
Proof.
  destruct (lower_cp_cases c) as [[-> ?]|[-> ?]].
  - destruct (lower_cp_cases (c + 32)); lia.
  - destruct (lower_cp_cases c); lia.
Qed.

#[global, refine] Instance latin1 : Lowercase := {| lower := latin1_lower |}.
Proof.
  - done.
  - intros a c b H. unfold latin1_lower. rewrite map_app. simpl. by rewrite lower_cp_space.
  - intros w Hw Hall. split.
    + destruct w; done.
    + unfold latin1_lower. rewrite forallb_forall in *. intros x [y [<- Hy]]%in_map_iff.
      unfold nonspace in *. rewrite negb_true_iff. apply lower_cp_nonspace.
      specialize (Hall y Hy). by rewrite negb_true_iff in Hall.
  - intros s. unfold latin1_lower. rewrite map_map. apply map_ext. intros; apply lower_cp_idem.
  - done.
Defined.

(** ** Stripping, collapsing and splitting *)

Lemma lstrip_app a b :
  lstrip (a ++ b) = if forallb isspace a then lstrip b else lstrip a ++ b.
Proof.
  induction a as [|c a IH]; simpl; [done|].
  destruct (isspace c); simpl; done.
Qed.

Lemma lstrip_nil_iff s : lstrip s = [] ↔ forallb isspace s = true.
Proof.
  induction s as [|c s IH]; simpl; [done|].
  destruct (isspace c); simpl; [done|]. split; done.
Qed.

Lemma forallb_rev {A} (f : A → bool) l : forallb f (rev l) = forallb f l.
Proof.
  induction l as [|x l IH]; simpl; [done|].
  rewrite forallb_app, IH. simpl. rewrite andb_true_r. apply andb_comm.
Qed.

Lemma rstrip_nil_iff s : rstrip s = [] ↔ forallb isspace s = true.
Proof.
  unfold rstrip. rewrite <- (forallb_rev isspace s), <- lstrip_nil_iff.
  destruct (lstrip (rev s)) as [|c u]; simpl; [done|].
  split; [|done]. intros H. by destruct (rev u).
Qed.

Lemma rstrip_cons c t :
  rstrip (c :: t) =
  match rstrip t with
  | [] => if isspace c then [] else [c]
  | r => c :: r
  end.
Proof.
  unfold rstrip at 1. simpl. rewrite lstrip_app.
  destruct (forallb isspace (rev t)) eqn:E.
  - assert (rstrip t = []) as ->.
    { apply rstrip_nil_iff. by rewrite <- forallb_rev. }
    simpl. by destruct (isspace c).
  - rewrite rev_app_distr. simpl. fold (rstrip t).
    destruct (rstrip t) eqn:R; [|done].
    apply rstrip_nil_iff in R. rewrite <- forallb_rev in R. congruence.
Qed.

Lemma lstrip_sub_ws_from b s :
  lstrip (sub_ws_from b s) = lstrip (sub_ws_from true s).
Proof.
  destruct s as [|c t]; simpl; [done|].
  destruct (isspace c) eqn:E; [|done]. destruct b; [done|].
  simpl. done.
Qed.

Lemma sub_ws_from_true_head s :
  match sub_ws_from true s with
  | [] => True
  | c :: _ => isspace c = false
  end.
Proof.
  induction s as [|c t IH]; simpl; [done|].
  destruct (isspace c) eqn:E; done.
Qed.

Lemma split_nonspace_cons c t :
  isspace c = false → ∃ w ws, split (c :: t) = w :: ws.
Proof.
  intros H. simpl. rewrite H. destruct t as [|d t']; [by eauto|].
  destruct (isspace d); [by eauto|]. destruct (split (d :: t')); by eauto.
Qed.

Lemma join_sp_cons w ws :
  join_sp (w :: ws) = match ws with [] => w | _ => w ++ SPACE :: join_sp ws end.
Proof. by destruct ws. Qed.

(** Every word of [split] is non-empty and free of whitespace. *)
Lemma split_words s :
  Forall (λ w, w ≠ [] ∧ forallb nonspace w = true) (split s).
Proof.
  induction s as [|c t IH]; simpl; [constructor|].
  destruct (isspace c) eqn:E; [done|].
  assert (nonspace c = true) as Hc by (unfold nonspace; by rewrite E).
  destruct t as [|d t']; [repeat constructor; simpl; by rewrite ?Hc|].
  destruct (isspace d) eqn:Ed.
  - constructor; [|done]. simpl. by rewrite Hc.
  - destruct (split (d :: t')) as [|w ws]; [repeat constructor; simpl; by rewrite ?Hc|].
    inversion IH as [|? ? [? Hw] ?]; subst. constructor; [|done].
    split; [done|]. simpl. by rewrite Hc, Hw.
Qed.

Lemma join_sp_nil_iff ws :
  Forall (λ w : str, w ≠ []) ws → join_sp ws = [] ↔ ws = [].
Proof.
  intros H. destruct ws as [|w ws]; [done|].
  inversion H; subst. rewrite join_sp_cons. split; [|done].
  destruct ws; [done|]. by destruct w.
Qed.

Lemma join_split_nil_iff s : join_sp (split s) = [] ↔ split s = [].
Proof.
  apply join_sp_nil_iff. eapply Forall_impl; [apply split_words|]. by intros ? [? ?].
Qed.

Lemma split_cons_space c t : isspace c = true → split (c :: t) = split t.
Proof. intros H. simpl. by rewrite H. Qed.

Lemma split_cons_word c t :
  isspace c = false →
  split (c :: t) =
  match t with
  | [] => [[c]]
  | d :: _ =>
    if isspace d then [c] :: split t
    else match split t with w :: ws => (c :: w) :: ws | [] => [[c]] end
  end.
Proof. intros H. simpl. by rewrite H. Qed.

Lemma join_split_cons_word c t :
  isspace c = false →
  join_sp (split (c :: t)) =
  match t with
  | [] => [c]
  | d :: _ =>
    if isspace d
    then match join_sp (split t) with [] => [c] | j => c :: SPACE :: j end
    else c :: join_sp (split t)
  end.
Proof.
  intros H. rewrite split_cons_word by done. destruct t as [|d t']; [done|].
  destruct (isspace d) eqn:Ed.
  - rewrite join_sp_cons. destruct (split (d :: t')) eqn:S.
    + done.
    + rewrite <- S. destruct (join_sp (split (d :: t'))) eqn:J; [|done].
      apply join_split_nil_iff in J. congruence.
  - destruct (split_nonspace_cons d t' Ed) as (w & ws & ->).
    rewrite !join_sp_cons. by destruct ws.
Qed.

Lemma lstrip_sub_ws_from_true s :
  lstrip (sub_ws_from true s) = sub_ws_from true s.
Proof.
  pose proof (sub_ws_from_true_head s) as H.
  destruct (sub_ws_from true s); [done|]. simpl. by rewrite H.
Qed.

(** [strip (re.sub(r"\s+", " ", s))] is [" ".join(s.split())]. *)
Lemma strip_sub_ws_from b s :
  rstrip (lstrip (sub_ws_from b s)) = join_sp (split s).
Proof.
  revert b. induction s as [|c t IH]; intros b; [done|].
  destruct (isspace c) eqn:E.
  - rewrite split_cons_space by done. rewrite <- (IH true).
    rewrite lstrip_sub_ws_from. cbn [sub_ws_from]. by rewrite E.
  - rewrite join_split_cons_word by done.
    cbn [sub_ws_from]. rewrite E. cbn [lstrip]. rewrite E.
    rewrite rstrip_cons. destruct t as [|d t']; [by (cbn; rewrite E)|].
    destruct (isspace d) eqn:Ed.
    + rewrite <- (IH false). cbn [sub_ws_from]. rewrite Ed.
      cbn [lstrip]. change (isspace SPACE) with true. cbn iota.
      rewrite lstrip_sub_ws_from_true. rewrite rstrip_cons.
      change (isspace SPACE) with true. cbn iota.
      destruct (rstrip (sub_ws_from true t')); [by rewrite E|done].
    + rewrite <- (IH false). cbn [sub_ws_from]. rewrite Ed. cbn [lstrip]. rewrite Ed.
      destruct (rstrip (d :: sub_ws_from false t')) eqn:R; [|done].
      apply rstrip_nil_iff in R. simpl in R. by rewrite Ed in R.
Qed.

Lemma strip_sub_ws s : strip (sub_ws s) = join_sp (split s).
Proof. apply strip_sub_ws_from. Qed.

(** A string is free of whitespace or splits at its first whitespace. *)
Lemma first_space s :
  forallb nonspace s = true ∨
  ∃ a c b, s = a ++ c :: b ∧ forallb nonspace a = true ∧ isspace c = true.
Proof.
  induction s as [|x s IH]; [by left|].
  destruct (isspace x) eqn:E.
  - right. exists [], x, s. done.
  - destruct IH as [IH|(a & c & b & -> & Ha & Hc)].
    + left. simpl. unfold nonspace at 1. by rewrite E.
    + right. exists (x :: a), c, b. repeat split; [|done].
      simpl. unfold nonspace at 1. by rewrite E.
Qed.

Lemma split_word w : is_word w → split w = [w].
Proof.
  intros [Hne Hall]. induction w as [|c w IH]; [done|].
  simpl in Hall. apply andb_true_iff in Hall as [Hc Hw].
  unfold nonspace in Hc. apply negb_true_iff in Hc.
  rewrite split_cons_word by done. destruct w as [|d w']; [done|].
  pose proof Hw as Hw'. simpl in Hw'. apply andb_true_iff in Hw' as [Hd _].
  unfold nonspace in Hd. apply negb_true_iff in Hd. rewrite Hd.
  by rewrite IH.
Qed.

Lemma split_app_sep a c b :
  forallb nonspace a = true → isspace c = true →
  split (a ++ c :: b) = (if a is [] then [] else [a]) ++ split b.
Proof.
  intros Ha Hc. induction a as [|x a IH].
  - simpl. by rewrite Hc.
  - simpl in Ha. apply andb_true_iff in Ha as [Hx Ha].
    unfold nonspace in Hx. apply negb_true_iff in Hx.
    change ((x :: a) ++ c :: b) with (x :: (a ++ c :: b)).
    rewrite split_cons_word by done. specialize (IH Ha).
    destruct a as [|y a'].
    + simpl. by rewrite Hc.
    + change ((y :: a') ++ c :: b) with (y :: (a' ++ c :: b)) in *.
      simpl in Ha. apply andb_true_iff in Ha as [Hy _].
      unfold nonspace in Hy. apply negb_true_iff in Hy. rewrite Hy.
      by rewrite IH.
Qed.

Lemma split_join_sp ws : Forall is_word ws → split (join_sp ws) = ws.
Proof.
  induction 1 as [|w ws Hw Hws IH]; [done|].
  rewrite join_sp_cons. destruct ws as [|w' ws'].
  - by apply split_word.
  - rewrite split_app_sep; [|apply Hw|done].
    rewrite IH. destruct Hw as [Hne _]. by destruct w.
Qed.

Section Lower_facts.
Context {L : Lowercase}.

Lemma lower_nil_iff s : lower s = [] ↔ s = [].
Proof.
  split; [|intros ->; apply lower_nil].
  intros H. destruct (first_space s) as [Hs|(a & c & b & -> & _ & Hc)].
  - destruct s as [|x s]; [done|]. by destruct (lower_word (x :: s)).
  - rewrite lower_sep in H by done. by destruct (lower a).
Qed.

Lemma lower_is_word w : is_word w → is_word (lower w).
Proof. intros [? ?]. by apply lower_word. Qed.

Lemma lower_nonspace s :
  forallb nonspace s = true → forallb nonspace (lower s) = true.
Proof.
  destruct s as [|x s]; [by rewrite lower_nil|].
  intros H. by apply lower_word.
Qed.

(** Lowercasing commutes with splitting into words. *)
Lemma split_lower s : split (lower s) = map lower (split s).
Proof.
  induction s as [s IH] using (induction_ltof1 _ (@length N)); unfold ltof in IH.
  destruct (first_space s) as [Hs|(a & c & b & -> & Ha & Hc)].
  - destruct s as [|x s]; [by rewrite lower_nil|].
    rewrite (split_word (x :: s)) by done.
    simpl. apply split_word. by apply lower_word.
  - rewrite lower_sep by done.
    rewrite !split_app_sep by (done || by apply lower_nonspace).
    rewrite map_app, IH by (rewrite length_app; simpl; lia).
    f_equal. destruct a as [|x a]; [by rewrite lower_nil|].
    cbn [map]. destruct (lower (x :: a)) eqn:E; [|done].
    apply (proj1 (lower_nil_iff _)) in E. discriminate.
Qed.

(** [norm] is [" ".join(s.lower().split())]. *)
Lemma norm_join_split s : norm s = join_sp (split (lower s)).
Proof. unfold norm. apply strip_sub_ws. Qed.

Lemma norm_idempotent s : norm (norm s) = norm s.
Proof.
  rewrite !norm_join_split. f_equal.
  rewrite (split_lower (join_sp _)).
  rewrite split_join_sp by apply split_words.
  rewrite split_lower, map_map. apply map_ext. intros w. apply lower_lower.
Qed.

End Lower_facts.

(** The string functions on inputs of the source. *)
Example replace_label :
  replace (U "Dirección: ") [] (U "Dirección: Av. Perú 123") = U "Av. Perú 123".
Proof. reflexivity. Qed.

Example search_url_hotel :
  search_url (U "hotel") (U "Cusco, Perú")
  = U "https://www.google.com/maps/search/hotel+en+Cusco,+Perú".
Proof. reflexivity. Qed.

Example norm_botica :
  norm (U "  Botica   CENTRAL ") = U "botica central"
  ∧ split (U "  Botica   CENTRAL ") = [U "Botica"; U "CENTRAL"].
Proof. split; reflexivity. Qed.

Example normalize_text_accents :
  _normalize_text (U "Panadería ÑANDÚ") = U "panaderia nandu".
Proof. reflexivity. Qed.

(** ** The insertion block and the extraction pool *)

Lemma nub_by_filter_comm {A B} `{EqDecision B} (f : A → B) (P : A → Prop)
    `{∀ x, Decision (P x)} (l : list A) :
  (∀ x y, f x = f y → P x → P y) →
  filter P (nub_by f l) = nub_by f (filter P l).
Proof.
  intros HP. induction l as [|x l IH]; [done|].
  cbn [nub_by]. rewrite !filter_cons. destruct (decide (P x)) as [Hx|Hx].
  - cbn [nub_by]. f_equal. rewrite <- IH.
    rewrite !list_filter_filter. apply list_filter_iff. intros y. tauto.
  - rewrite <- IH. rewrite list_filter_filter. apply list_filter_iff.
    intros y. split; [tauto|]. intros Hy. split; [done|].
    intros E. apply Hx. by apply (HP y x).
Qed.

Section Pool_facts.
Context {L : Lowercase}.
Variable max_results : nat.
Variable depto : str.

(** The insertion block either leaves the scraper as it is, or the key
    was not in the set and both the set and the store grow by the
    candidate. *)
Lemma accept_cases data s :
  accept max_results data s = s ∨
  (nombre data ≠ [] ∧ (key_of data ∉ _seen_keys s)
   ∧ results (accept max_results data s) = results s ++ [data]
   ∧ _seen_keys (accept max_results data s) = {[key_of data]} ∪ _seen_keys s
   ∧ is_running (accept max_results data s) = is_running s
   ∧ is_paused (accept max_results data s) = is_paused s).
Proof.
  unfold accept, key_of. destruct (nombre data) eqn:E; [by left|].
  destruct (decide _); [by left|]. right. done.
Qed.

Lemma accept_seen data s :
  key_of data ∈ _seen_keys s → accept max_results data s = s.
Proof.
  unfold accept, key_of. intros H. destruct (nombre data); [done|].
  by rewrite decide_True.
Qed.

Lemma accept_unnamed data s : nombre data = [] → accept max_results data s = s.
Proof. intros H. unfold accept. by rewrite H. Qed.

Lemma accept_ok data s : store_ok s → store_ok (accept max_results data s).
Proof.
  intros [Hnd Hin].
  destruct (accept_cases data s) as [->|(_ & Hk & Hr & Hs & _)]; [done|].
  split.
  - rewrite Hr, map_app. apply NoDup_app. split; [done|]. split.
    + intros k Hk1 Hk2. apply list_elem_of_singleton in Hk2 as ->.
      apply list_elem_of_fmap in Hk1 as (d & Hd & Hd'). apply Hk. rewrite Hd. by apply Hin.
    + apply NoDup_singleton.
  - intros d. rewrite Hr, Hs, elem_of_app, list_elem_of_singleton.
    intros [Hd|Hd].
    + apply elem_of_union_r. by apply Hin.
    + subst d. apply elem_of_union_l. by apply elem_of_singleton.
Qed.

Lemma process_link_cases r c s free here next s' free' :
  process_link max_results depto r c s free here = (next, s', free') →
  s' = s ∨ ∃ data, s' = accept max_results data s.
Proof.
  destruct here; simpl; unfold enter_sem; intros E;
    repeat case_match; simplify_eq; eauto.
Qed.

(** One step of the pool changes the store and the key set only through
    the insertion block. *)
Lemma step_cases a p p' :
  step max_results depto a p = Some p' →
  (results (session p') = results (session p)
   ∧ _seen_keys (session p') = _seen_keys (session p))
  ∨ ∃ data, session p' = accept max_results data (session p).
Proof.
  destruct a as [i r|links| | | |]; simpl.
  - destruct (tasks p !! i) as [t|]; [|done].
    destruct (process_link _ _ _ _ _ _ _) as [[next s'] free'] eqn:E.
    apply process_link_cases in E.
    intros [= <-]. simpl. destruct E as [->|[data ->]]; eauto.
  - destruct (_ && _); [|done]. intros [= <-]. by left.
  - intros [= <-]. by left.
  - intros [= <-]. by left.
  - intros [= <-]. by left.
  - intros [= <-]. by left.
Qed.

Lemma step_ok a p p' :
  step max_results depto a p = Some p' → store_ok (session p) → store_ok (session p').
Proof.
  intros Hs Hok. destruct (step_cases a p p' Hs) as [[Hr Hk]|[data ->]].
  - destruct Hok as [? ?]. split; rewrite ?Hr, ?Hk; done.
  - by apply accept_ok.
Qed.

Lemma run_ok acts p p' :
  run max_results depto acts p = Some p' → store_ok (session p) → store_ok (session p').
Proof.
  revert p. induction acts as [|a acts IH]; intros p; simpl.
  - by intros [= <-].
  - destruct (step _ _ a p) as [q|] eqn:Hq; [|done].
    intros Hr Hok. apply (IH q); [done|]. by apply (step_ok a p).
Qed.

Lemma pool_start_ok : store_ok (session pool_start).
Proof. split; simpl; [constructor|]. intros d Hd. by apply elem_of_nil in Hd. Qed.

(** Candidates inserted one after the other into a store whose keys are
    all in the set: the store grows by the first candidate of every new
    key. *)
Lemma accept_all_results ds s :
  results (accept_all max_results ds s) =
  results s ++
  nub_by key_of (filter (λ d, nombre d ≠ [] ∧ key_of d ∉ _seen_keys s) ds).
Proof.
  revert s. induction ds as [|d ds IH]; intros s.
  - simpl. by rewrite app_nil_r.
  - unfold accept_all in *. cbn [fold_left]. rewrite IH. rewrite filter_cons.
    destruct (accept_cases d s) as [E|(Hn & Hk & Hr & Hs & _)].
    + rewrite E. destruct (decide _) as [[Hn Hk]|Hno]; [|done].
      exfalso. unfold accept, key_of in *. destruct (nombre d) eqn:En; [done|].
      rewrite decide_False in E by done.
      apply (f_equal results) in E. simpl in E.
      apply (f_equal length) in E. rewrite length_app in E. simpl in E. lia.
    + rewrite decide_True by done. rewrite Hr, Hs, <- app_assoc. f_equal.
      cbn [nub_by app]. f_equal.
      rewrite nub_by_filter_comm by (intros x y E; congruence).
      f_equal. rewrite list_filter_filter. apply list_filter_iff.
      intros x. rewrite elem_of_union, elem_of_singleton. split.
      * tauto.
      * tauto.
Qed.

End Pool_facts.

(** ** Substrings, replacement and the accent table *)

Lemma startswith_spec a p : startswith a p = true ↔ ∃ rest, a = p ++ rest.
Proof.
  revert a. induction p as [|x p IH]; intros a; simpl.
  - split; [intros _; by exists a|done].
  - destruct a as [|y a].
    + split; [done|]. by intros [? ?].
    + rewrite andb_true_iff, N.eqb_eq, IH. split.
      * intros [-> [rest ->]]. by eauto.
      * intros [rest [= -> ->]]. by eauto.
Qed.

Lemma contains_spec a p :
  contains a p = true ↔ ∃ before after, a = before ++ p ++ after.
Proof.
  induction a as [|y a IH]; simpl.
  - rewrite orb_false_r, startswith_spec. split.
    + intros [rest ->]. by exists [], rest.
    + intros (b & r & H). destruct b; [by eauto|done].
  - rewrite orb_true_iff, IH, startswith_spec. split.
    + intros [[rest ->]|(b & r & ->)]; [by exists [], rest|].
      by exists (y :: b), r.
    + intros (b & r & H). destruct b as [|z b].
      * left. by eauto.
      * right. injection H as -> ->. by eauto.
Qed.

Lemma replace_from_single a b s :
  replace_from [a] [b] 0 s = map (λ c, if c =? a then b else c) s.
Proof.
  induction s as [|c s IH]; [done|].
  cbn [replace_from startswith map length]. rewrite N.eqb_sym.
  destruct (c =? a) eqn:E; simpl.
  - by rewrite IH.
  - by rewrite IH.
Qed.

Lemma isspace_deaccent c : isspace (deaccent c) = isspace c.
Proof.
  unfold deaccent.
  repeat (match goal with |- context [?x =? ?y] => destruct (N.eqb_spec x y) end;
          [by subst|]).
  done.
Qed.

Lemma starts_space_map g s :
  (∀ c, isspace (g c) = isspace c) → starts_space (map g s) = starts_space s.
Proof. intros H. destruct s; simpl; done. Qed.

Lemma ends_space_map g s :
  (∀ c, isspace (g c) = isspace c) → ends_space (map g s) = ends_space s.
Proof. intros H. unfold ends_space. rewrite <- map_rev. by apply starts_space_map. Qed.

Lemma forallb_nonspace_map g s :
  (∀ c, isspace (g c) = isspace c) →
  forallb nonspace (map g s) = forallb nonspace s.
Proof.
  intros H. induction s as [|c s IH]; [done|]. simpl. unfold nonspace at 1 3.
  by rewrite H, IH.
Qed.

Lemma strip_tight s :
  starts_space s = false → ends_space s = false → strip s = s.
Proof.
  intros Hs He. unfold strip.
  assert (lstrip s = s) as ->. { destruct s; simpl in *; [done|]. by rewrite Hs. }
  unfold rstrip, ends_space in *.
  assert (lstrip (rev s) = rev s) as ->.
  { destruct (rev s); simpl in *; [done|]. by rewrite He. }
  apply rev_involutive.
Qed.

Lemma nonspace_tight s :
  forallb nonspace s = true → starts_space s = false ∧ ends_space s = false.
Proof.
  intros H. split.
  - destruct s as [|c s]; [done|]. simpl in *. apply andb_true_iff in H as [H _].
    by apply negb_true_iff in H.
  - unfold ends_space. rewrite <- forallb_rev in H. destruct (rev s) as [|c r]; [done|].
    simpl in *. apply andb_true_iff in H as [H _]. by apply negb_true_iff in H.
Qed.

Lemma ends_space_app_sep a c b :
  isspace c = true → forallb nonspace b = true →
  ends_space (a ++ c :: b) = match b with [] => true | _ => false end.
Proof.
  intros Hc Hb. unfold ends_space. rewrite rev_app_distr. simpl.
  destruct b as [|x b] using rev_ind; [by simpl|].
  rewrite rev_app_distr. simpl. rewrite forallb_app in Hb. simpl in Hb.
  apply andb_true_iff in Hb as [_ Hx]. rewrite andb_true_r in Hx.
  apply negb_true_iff in Hx. rewrite Hx. by destruct b.
Qed.

(** A string is free of whitespace or splits at its last whitespace. *)
Lemma last_space s :
  forallb nonspace s = true ∨
  ∃ a c b, s = a ++ c :: b ∧ isspace c = true ∧ forallb nonspace b = true.
Proof.
  destruct (first_space (rev s)) as [H|(a & c & b & E & Ha & Hc)].
  - left. by rewrite forallb_rev in H.
  - right. exists (rev b), c, (rev a). split; [|by rewrite forallb_rev].
    rewrite <- (rev_involutive s), E, rev_app_distr. simpl. by rewrite <- app_assoc.
Qed.

Section Normalize_facts.
Context {L : Lowercase}.

Lemma normalize_text_map s : _normalize_text s = map deaccent (lower s).
Proof.
  unfold _normalize_text, replacements, replace. cbn [fold_left].
  change (U "á") with [225]; change (U "é") with [233]; change (U "í") with [237];
  change (U "ó") with [243]; change (U "ú") with [250]; change (U "ñ") with [241];
  change (U "a") with [97]; change (U "e") with [101]; change (U "i") with [105];
  change (U "o") with [111]; change (U "u") with [117]; change (U "n") with [110].
  rewrite !replace_from_single, !map_map. apply map_ext. intros c. unfold deaccent.
  destruct (N.eqb_spec c 225) as [->|_]; [done|].
  destruct (N.eqb_spec c 233) as [->|_]; [done|].
  destruct (N.eqb_spec c 237) as [->|_]; [done|].
  destruct (N.eqb_spec c 243) as [->|_]; [done|].
  destruct (N.eqb_spec c 250) as [->|_]; [done|].
  destruct (N.eqb_spec c 241) as [->|_]; done.
Qed.

Lemma forallb_nonspace_lower s : forallb nonspace (lower s) = forallb nonspace s.
Proof.
  destruct (first_space s) as [H|(a & c & b & -> & _ & Hc)].
  - by rewrite H, lower_nonspace.
  - rewrite lower_sep by done. rewrite !forallb_app. simpl. unfold nonspace at 2 5.
    rewrite Hc. simpl. by rewrite !andb_false_r.
Qed.

Lemma starts_space_lower s : starts_space (lower s) = starts_space s.
Proof.
  destruct (first_space s) as [H|(a & c & b & -> & Ha & Hc)].
  - destruct (nonspace_tight s H) as [-> _].
    by destruct (nonspace_tight _ (lower_nonspace s H)) as [-> _].
  - rewrite lower_sep by done. destruct a as [|x a].
    + rewrite lower_nil. simpl. done.
    + destruct (lower_word (x :: a)) as [Hne Hw]; [done|done|].
      destruct (lower (x :: a)) as [|y l] eqn:E; [done|]. simpl in *.
      apply andb_true_iff in Ha as [Hx _]. apply andb_true_iff in Hw as [Hy _].
      apply negb_true_iff in Hx, Hy. by rewrite Hx, Hy.
Qed.

Lemma ends_space_lower s : ends_space (lower s) = ends_space s.
Proof.
  destruct (last_space s) as [H|(a & c & b & -> & Hc & Hb)].
  - destruct (nonspace_tight s H) as [_ ->].
    by destruct (nonspace_tight _ (lower_nonspace s H)) as [_ ->].
  - rewrite lower_sep by done.
    rewrite !ends_space_app_sep by (done || by apply lower_nonspace).
    destruct b as [|x b]; [by rewrite lower_nil|].
    destruct (lower (x :: b)) eqn:E; [|done].
    apply (proj1 (lower_nil_iff _)) in E. discriminate.
Qed.

Lemma starts_space_normalize s : starts_space (_normalize_text s) = starts_space s.
Proof.
  rewrite normalize_text_map, starts_space_map by apply isspace_deaccent.
  apply starts_space_lower.
Qed.

Lemma ends_space_normalize s : ends_space (_normalize_text s) = ends_space s.
Proof.
  rewrite normalize_text_map, ends_space_map by apply isspace_deaccent.
  apply ends_space_lower.
Qed.

Lemma forallb_nonspace_normalize s :
  forallb nonspace (_normalize_text s) = forallb nonspace s.
Proof.
  rewrite normalize_text_map, forallb_nonspace_map by apply isspace_deaccent.
  apply forallb_nonspace_lower.
Qed.

End Normalize_facts.

(** ** Term expansion *)

Lemma nub_by_sublist {A B} `{EqDecision B} (f : A → B) (l : list A) :
  nub_by f l `sublist_of` l.
Proof.
  induction l as [|x l IH]; [done|]. cbn [nub_by]. apply sublist_skip.
  etrans; [apply sublist_filter|done].
Qed.

Lemma nub_by_NoDup {A B} `{EqDecision B} (f : A → B) (l : list A) :
  NoDup (map f (nub_by f l)).
Proof.
  induction l as [|x l IH]; [constructor|]. cbn [nub_by map]. constructor.
  - intros (y & Hy & Hin)%list_elem_of_fmap. apply list_elem_of_filter in Hin as [Hne _].
    by apply Hne.
  - eapply sublist_NoDup; [apply IH|]. apply fmap_sublist, sublist_filter.
Qed.

Section Expand_facts.
Context {L : Lowercase}.

(** The loop that builds [unique] keeps the first term of every
    normalised form. *)
Lemma unique_terms_nub seen l :
  unique_terms seen l
  = nub_by _normalize_text (filter (λ t, _normalize_text t ∉ seen) l).
Proof.
  revert seen. induction l as [|term rest IH]; intros seen; [done|].
  cbn [unique_terms]. rewrite filter_cons.
  destruct (decide (_normalize_text term ∈ seen)) as [Hin|Hin].
  - rewrite decide_False by tauto. apply IH.
  - rewrite decide_True by done. cbn [nub_by]. f_equal. rewrite IH.
    rewrite nub_by_filter_comm by (intros x y E; congruence).
    f_equal. rewrite list_filter_filter. apply list_filter_iff. intros x.
    rewrite elem_of_union, elem_of_singleton. tauto.
Qed.

Lemma unique_terms_empty l : unique_terms ∅ l = nub_by _normalize_text l.
Proof.
  rewrite unique_terms_nub. f_equal. induction l as [|x l IH]; [done|].
  rewrite filter_cons, decide_True by apply not_elem_of_empty. by rewrite IH.
Qed.

Lemma term_matches_spec rubro key synonyms :
  term_matches (_normalize_text rubro) key synonyms = true
  ↔ matches_key rubro key synonyms.
Proof.
  unfold term_matches, matches_key.
  rewrite !orb_true_iff, !bool_decide_eq_true, contains_spec. tauto.
Qed.

(** Table facts: no key contains whitespace and no synonym starts or
    ends with whitespace. *)
Lemma sinonimos_tight key synonyms :
  (key, synonyms) ∈ sinonimos →
  forallb nonspace key = true
  ∧ ∀ syn, syn ∈ synonyms → starts_space syn = false ∧ ends_space syn = false.
Proof.
  intros Hin.
  assert (forallb (λ '(k, syns),
            forallb nonspace k
            && forallb (λ s, negb (starts_space s) && negb (ends_space s)) syns)
            sinonimos = true) as Hall by by vm_compute.
  rewrite forallb_forall in Hall. apply list_elem_of_In in Hin.
  specialize (Hall _ Hin). simpl in Hall. apply andb_true_iff in Hall as [Hk Hs].
  split; [done|]. intros syn Hsyn. rewrite forallb_forall in Hs.
  apply list_elem_of_In in Hsyn. specialize (Hs _ Hsyn).
  apply andb_true_iff in Hs as [H1 H2]. by rewrite negb_true_iff in H1, H2.
Qed.

(** A category that matches an entry has no whitespace at its ends, so
    [rubro.strip()] is the category itself. *)
Lemma matches_key_strip rubro key synonyms :
  (key, synonyms) ∈ sinonimos → matches_key rubro key synonyms → strip rubro = rubro.
Proof.
  intros Hin Hm. destruct (sinonimos_tight key synonyms Hin) as [Hkey Hsyn].
  rewrite <- forallb_nonspace_normalize in Hkey.
  destruct Hm as [E|[E|(b & a & E)]].
  - rewrite <- E, forallb_nonspace_normalize in Hkey.
    destruct (nonspace_tight _ Hkey). by apply strip_tight.
  - apply list_elem_of_fmap in E as (syn & E & Hs). destruct (Hsyn syn Hs) as [H1 H2].
    apply strip_tight.
    + by rewrite <- starts_space_normalize, E, starts_space_normalize.
    + by rewrite <- ends_space_normalize, E, ends_space_normalize.
  - rewrite E, !forallb_app in Hkey. apply andb_true_iff in Hkey as [_ Hkey].
    apply andb_true_iff in Hkey as [Hkey _]. rewrite forallb_nonspace_normalize in Hkey.
    destruct (nonspace_tight _ Hkey). by apply strip_tight.
Qed.

Lemma expand_over_first before key synonyms after rubro :
  (∀ k s, (k, s) ∈ before → ¬ matches_key rubro k s) →
  matches_key rubro key synonyms →
  expand_over (before ++ (key, synonyms) :: after) rubro
  = take 3 (unique_terms ∅ (strip rubro :: synonyms)).
Proof.
  intros Hno Hyes. induction before as [|[k s] before IH]; cbn [expand_over app].
  - apply term_matches_spec in Hyes. by rewrite Hyes.
  - destruct (term_matches _ k s) eqn:E.
    + apply term_matches_spec in E. exfalso. apply (Hno k s); [left|done].
    + apply IH. intros k' s' Hin. apply Hno. by right.
Qed.

Lemma expand_over_none items rubro :
  (∀ k s, (k, s) ∈ items → ¬ matches_key rubro k s) →
  expand_over items rubro = [rubro].
Proof.
  intros Hno. induction items as [|[k s] items IH]; cbn [expand_over]; [done|].
  destruct (term_matches _ k s) eqn:E.
  - apply term_matches_spec in E. exfalso. apply (Hno k s); [left|done].
  - apply IH. intros k' s' Hin. apply Hno. by right.
Qed.

(** Among the entries that match there is a first one in table order. *)
Lemma first_match items rubro :
  (∃ k s, (k, s) ∈ items ∧ matches_key rubro k s) →
  ∃ before key synonyms after,
    items = before ++ (key, synonyms) :: after
    ∧ matches_key rubro key synonyms
    ∧ ∀ k s, (k, s) ∈ before → ¬ matches_key rubro k s.
Proof.
  induction items as [|[k s] items IH]; intros (k0 & s0 & Hin & Hm).
  - by apply elem_of_nil in Hin.
  - destruct (term_matches (_normalize_text rubro) k s) eqn:E.
    + apply term_matches_spec in E. exists [], k, s, items. split; [done|].
      split; [done|]. intros ? ? H. by apply elem_of_nil in H.
    + assert (¬ matches_key rubro k s) as Hk.
      { intros H. apply term_matches_spec in H. congruence. }
      apply elem_of_cons in Hin as [[= -> ->]|Hin]; [done|].
      destruct IH as (before & key & syns & after & -> & Hyes & Hno); [by eauto|].
      exists ((k, s) :: before), key, syns, after. split; [done|]. split; [done|].
      intros k' s' [[= -> ->]|H]%elem_of_cons; [done|]. by apply Hno.
Qed.

Lemma expand_over_nonempty items rubro : (1 ≤ length (expand_over items rubro))%nat.
Proof.
  induction items as [|[k sy] items IH]; cbn [expand_over]; [simpl; lia|].
  destruct (term_matches _ k sy); [|done].
  rewrite unique_terms_empty. cbn [nub_by take length]. lia.
Qed.

Lemma normalize_text_latin1 s :
  forallb (λ c, c <? 256) s = true →
  _normalize_text s = _normalize_text (L := latin1) s.
Proof. intros H. unfold _normalize_text. by rewrite lower_latin1. Qed.

Lemma unique_terms_latin1 seen l :
  forallb (forallb (λ c, c <? 256)) l = true →
  unique_terms seen l = unique_terms (L := latin1) seen l.
Proof.
  revert seen. induction l as [|t l IH]; intros seen H; [done|].
  simpl in H. apply andb_true_iff in H as [Ht Hl]. cbn [unique_terms].
  rewrite (normalize_text_latin1 t Ht). destruct (decide _); by rewrite IH.
Qed.

End Expand_facts.

(** * Properties of the specification *)

(** ** DedupKey (C2, C9) *)

(** C9: DedupKey normalisation is idempotent.  The normalisation [norm]
    that builds each component of the key changes nothing on a string
    that is already normalised, so the key of the normalised strings is
    the key of the strings. *)
Theorem make_key_idempotent `{L : Lowercase} (name address : str) :
  norm (norm name) = norm name
  ∧ _make_key (norm name) (norm address) = _make_key name address.
Proof.
  split; [apply norm_idempotent|].
  unfold _make_key. by rewrite !norm_idempotent.
Qed.

(** The claim C2 fails on a name with an accent: the key keeps the
    accented letter, while the key of the specification drops it, so
    "Café" and "Cafe" get different keys. *)
Lemma make_key_keeps_diacritics :
  _make_key (U "Café") (U "Av. Perú 123") = (U "café", U "av. perú 123")
  ∧ DedupKey_spec (U "Café") (U "Av. Perú 123") = (U "cafe", U "av. peru 123")
  ∧ _make_key (U "Café") (U "Av. Perú 123") ≠ DedupKey_spec (U "Café") (U "Av. Perú 123")
  ∧ _make_key (U "Café") (U "") ≠ _make_key (U "Cafe") (U "").
Proof. vm_compute. repeat split; discriminate. Qed.

(** C2, amended: the DedupKey is the pair of the two strings, each
    lowercased, split at its whitespace runs and joined again with single
    spaces (so collapsed and trimmed); accented letters stay as
    lowercasing leaves them.  Candidates with a name are inserted in
    order, and of several candidates with one key the first is stored:
    a candidate whose key is in the set leaves the scraper unchanged. *)
Theorem make_key_spec `{L : Lowercase} (max_results : nat) (name address : str) :
  _make_key name address
  = (join_sp (split (lower name)), join_sp (split (lower address)))
  ∧ (is_word name → norm name = lower name)
  ∧ (∀ ds : list BusinessRecord,
       results (accept_all max_results ds (scrape_begin new_scraper))
       = nub_by key_of (filter (λ d, nombre d ≠ []) ds))
  ∧ (∀ d s, key_of d ∈ _seen_keys s → accept max_results d s = s).
Proof.
  split; [|split; [|split]].
  - unfold _make_key. by rewrite !norm_join_split.
  - intros Hw. rewrite norm_join_split.
    by rewrite (split_word (lower name)) by by apply lower_is_word.
  - intros ds. rewrite accept_all_results. simpl. f_equal.
    apply list_filter_iff. intros d. split; [tauto|]. intros ?. split; [done|].
    apply not_elem_of_empty.
  - intros d s. apply accept_seen.
Qed.

Lemma make_key_spec_witness :
  _make_key (U " Botica   CENTRAL ") (U "Av. Principal 123")
  = (U "botica central", U "av. principal 123")
  ∧ norm (U "Botica") = U "botica"
  ∧ results (accept_all 10 [botica_central; botica_central'] (scrape_begin new_scraper))
    = [botica_central]
  ∧ accept 10 botica_central' (accept 10 botica_central (scrape_begin new_scraper))
    = accept 10 botica_central (scrape_begin new_scraper).
Proof.
  pose proof (make_key_spec (L := latin1) 10 (U "Botica") (U "")) as (_ & Hw & Ha & Hs).
  split; [|split; [|split]].
  - rewrite (proj1 (make_key_spec (L := latin1) 10 _ _)). reflexivity.
  - rewrite Hw; [reflexivity|]. split; [discriminate|reflexivity].
  - rewrite Ha. vm_compute. reflexivity.
  - apply Hs. vm_compute. reflexivity.
Defined.

(** ** The result store (C1, C7) *)

(** The claim C1 fails for the DedupKey of the specification, which
    strips diacritics: the store ends up with "Café" and "Cafe", two
    records whose DedupKeys are equal, because the keys that the code
    compares keep the accent and differ. *)
Lemma store_holds_equal_dedup_keys :
  ∃ p, run 10 (U "Lima") two_cafes pool_start = Some p
       ∧ map (λ d, (nombre d, direccion d)) (results (session p))
         = [(U "Café", U "Av. Perú 123"); (U "Cafe", U "Av. Peru 123")]
       ∧ DedupKey_spec (U "Café") (U "Av. Perú 123")
         = DedupKey_spec (U "Cafe") (U "Av. Peru 123")
       ∧ _make_key (U "Café") (U "Av. Perú 123")
         ≠ _make_key (U "Cafe") (U "Av. Peru 123").
Proof.
  eexists. split; [vm_compute; reflexivity|].
  split; [reflexivity|]. split; [by vm_compute|]. by vm_compute.
Qed.

(** C1, amended: in every state the pool reaches from the start of a
    session, under any interleaving of the extraction coroutines and of
    [stop], [pause], [resume] and cancellation, no two stored records have
    the same key as [_make_key] computes it (diacritics kept).  Every step
    that appends a record does so inside the insertion block, which has
    found the key absent and inserts it in the same step; a candidate
    whose key is present is discarded. *)
Theorem result_store_keys_distinct `{L : Lowercase} (max_results : nat) (depto : str)
    (acts : list action) (p : pool) :
  run max_results depto acts pool_start = Some p →
  NoDup (map key_of (results (session p)))
  ∧ (∀ d, d ∈ results (session p) → key_of d ∈ _seen_keys (session p))
  ∧ (∀ a p', step max_results depto a p = Some p' →
       (results (session p') = results (session p)
        ∧ _seen_keys (session p') = _seen_keys (session p))
       ∨ ∃ data, (key_of data ∉ _seen_keys (session p))
           ∧ results (session p') = results (session p) ++ [data]
           ∧ _seen_keys (session p') = {[key_of data]} ∪ _seen_keys (session p))
  ∧ (∀ data, key_of data ∈ _seen_keys (session p) →
       accept max_results data (session p) = session p).
Proof.
  intros Hrun.
  destruct (run_ok max_results depto acts pool_start p Hrun pool_start_ok) as [Hnd Hin].
  split; [done|]. split; [done|]. split.
  - intros a p' Hstep.
    destruct (step_cases max_results depto a p p' Hstep) as [?|[data ->]]; [by left|].
    destruct (accept_cases max_results data (session p)) as [->|(_ & ? & ? & ? & _)];
      [by left|].
    right. by exists data.
  - intros data. apply accept_seen.
Qed.

Lemma result_store_keys_distinct_witness :
  ∃ p, run 10 (U "Lima") two_boticas pool_start = Some p
       ∧ length (results (session p)) = 1%nat
       ∧ NoDup (map key_of (results (session p))).
Proof.
  eexists. split; [vm_compute; reflexivity|]. split; [reflexivity|].
  apply (result_store_keys_distinct 10 (U "Lima") two_boticas).
  vm_compute. reflexivity.
Defined.

(** C7 fails on this run.  Two candidates are being extracted when the
    stop command arrives; the second has read its name and waits for its
    address.  The running flag is false from the stop on, the first
    coroutine ends by the cancellation and with it the task that runs
    [scrape], so the stop command returns, and the store is empty.  In the
    second coroutine the [CancelledError] is swallowed by the bare [except]
    of the field read; it goes on and appends its record after the stop. *)
Lemma record_appended_after_stop :
  ∃ p q, run 10 (U "Lima") stop_during_address pool_start = Some p
         ∧ is_running (session p) = false
         ∧ scrape_ended p = true
         ∧ results (session p) = []
         ∧ run 10 (U "Lima") after_the_stop p = Some q
         ∧ is_running (session q) = false
         ∧ results (session q)
           = [set_field f_nombre (U "Botica Central") (empty_data (U "Lima"))].
Proof.
  eexists. eexists. split; [vm_compute; reflexivity|].
  split; [reflexivity|]. split; [reflexivity|]. split; [reflexivity|].
  split; [vm_compute; reflexivity|]. by vm_compute.
Qed.

(** ** Search-space expansion (C3, C4) *)

(** C3: when the normalised category matches an entry of the synonym
    table (it is the normalised key, one of the normalised synonyms, or a
    substring of the normalised key), [expand_search_term] returns the
    category followed by the synonyms of a matching entry, keeping the
    first term of every normalised form, cut to three phrases, the
    category first; the entry is the first matching one in table order.
    When no entry matches it returns the category alone.  The result is
    never empty, and "restaurante" gives restaurante, restaurant,
    comida. *)
Theorem expand_search_term_spec `{L : Lowercase} (rubro : str) :
  ((∃ key synonyms, (key, synonyms) ∈ sinonimos ∧ matches_key rubro key synonyms) →
   ∃ key synonyms,
     (key, synonyms) ∈ sinonimos ∧ matches_key rubro key synonyms
     ∧ expand_search_term rubro = take 3 (nub_by _normalize_text (rubro :: synonyms))
     ∧ head (expand_search_term rubro) = Some rubro
     ∧ (length (expand_search_term rubro) ≤ 3)%nat
     ∧ NoDup (map _normalize_text (expand_search_term rubro)))
  ∧ (∀ before key synonyms after,
       sinonimos = before ++ (key, synonyms) :: after →
       matches_key rubro key synonyms →
       (∀ k s, (k, s) ∈ before → ¬ matches_key rubro k s) →
       expand_search_term rubro = take 3 (nub_by _normalize_text (rubro :: synonyms)))
  ∧ ((∀ key synonyms, (key, synonyms) ∈ sinonimos → ¬ matches_key rubro key synonyms) →
     expand_search_term rubro = [rubro])
  ∧ (1 ≤ length (expand_search_term rubro))%nat
  ∧ expand_search_term (U "restaurante") = [U "restaurante"; U "restaurant"; U "comida"].
Proof.
  assert (∀ before key synonyms after,
            sinonimos = before ++ (key, synonyms) :: after →
            matches_key rubro key synonyms →
            (∀ k s, (k, s) ∈ before → ¬ matches_key rubro k s) →
            expand_search_term rubro
            = take 3 (nub_by _normalize_text (rubro :: synonyms))) as Hfirst.
  { intros before key synonyms after E Hyes Hno. unfold expand_search_term.
    rewrite E, (expand_over_first before key synonyms after rubro Hno Hyes).
    rewrite (matches_key_strip rubro key synonyms), unique_terms_empty; [done| |done].
    rewrite E. apply elem_of_app. right. by left. }
  split; [|split; [done|split; [|split]]].
  - intros Hex. destruct (first_match sinonimos rubro Hex)
      as (before & key & synonyms & after & E & Hyes & Hno).
    exists key, synonyms. rewrite (Hfirst _ _ _ _ E Hyes Hno).
    split; [rewrite E; apply elem_of_app; right; by left|]. split; [done|].
    split; [done|]. split; [done|]. split.
    + rewrite length_take. lia.
    + eapply sublist_NoDup; [apply (nub_by_NoDup _normalize_text (rubro :: synonyms))|].
      apply fmap_sublist, sublist_take.
  - apply expand_over_none.
  - apply expand_over_nonempty.
  - unfold expand_search_term, sinonimos. cbn [expand_over].
    assert (term_matches (_normalize_text (U "restaurante")) (U "restaurante")
              [U "restaurant"; U "comida"; U "food"; U "gastronomía"; U "cocina"] = true)
      as ->.
    { apply term_matches_spec. by left. }
    rewrite unique_terms_latin1 by by vm_compute. by vm_compute.
Qed.

Lemma expand_search_term_spec_witness :
  expand_search_term (U "pan") = [U "pan"; U "bakery"; U "bread"]
  ∧ expand_search_term (U "ia") = [U "ia"; U "mining"; U "minera"]
  ∧ expand_search_term (U " Zapatería ") = [U " Zapatería "].
Proof.
  pose proof (expand_search_term_spec (L := latin1) (U "pan")) as (_ & Hpan & _).
  pose proof (expand_search_term_spec (L := latin1) (U "ia")) as (_ & Hia & _).
  pose proof (expand_search_term_spec (L := latin1) (U " Zapatería ")) as (_ & _ & Hz & _).
  split; [|split].
  - rewrite (Hpan (firstn 5 sinonimos) (U "panadería")
               [U "bakery"; U "pan"; U "bread"; U "pastelería"] (skipn 6 sinonimos)).
    + reflexivity.
    + reflexivity.
    + right. left. vm_compute. apply list_elem_of_In. simpl. tauto.
    + intros k s Hin Hm. apply term_matches_spec in Hm.
      apply list_elem_of_In in Hin. simpl in Hin.
      repeat (destruct Hin as [[= <- <-]|Hin]; [by vm_compute in Hm|]). done.
  - rewrite (Hia (firstn 2 sinonimos) (U "minería")
               [U "mining"; U "minera"; U "mina"; U "extracción minera"]
               (skipn 3 sinonimos)).
    + reflexivity.
    + reflexivity.
    + apply term_matches_spec. by vm_compute.
    + intros k s Hin Hm. apply term_matches_spec in Hm.
      apply list_elem_of_In in Hin. simpl in Hin.
      repeat (destruct Hin as [[= <- <-]|Hin]; [by vm_compute in Hm|]). done.
  - apply Hz. intros k s Hin Hm. apply term_matches_spec in Hm.
    apply list_elem_of_In in Hin. simpl in Hin.
    repeat (destruct Hin as [[= <- <-]|Hin]; [by vm_compute in Hm|]). done.
Defined.

(** C4: when the stripped, lowercased region is "lima", the Region
    Expander returns the 32 strings "<district>, Lima, <country>" for the
    districts of the fixed list, in the order of the list, each ending in
    ", Lima, Perú" when the country is "Perú"; for every other region it
    returns the single string "<region>, <country>". *)
Theorem build_location_terms_spec `{L : Lowercase} (depto pais : str) :
  (lower (strip depto) = U "lima" →
   _build_location_terms depto pais
   = map (λ distrito, distrito ++ U ", Lima, " ++ pais) distritos_lima
   ∧ length (_build_location_terms depto pais) = 32%nat
   ∧ Forall (λ loc, ∃ distrito, distrito ∈ distritos_lima
                      ∧ loc = distrito ++ U ", Lima, " ++ pais)
       (_build_location_terms depto pais)
   ∧ (pais = U "Perú" →
      Forall (λ loc, U ", Lima, Perú" `suffix_of` loc) (_build_location_terms depto pais)))
  ∧ (lower (strip depto) ≠ U "lima" →
     _build_location_terms depto pais = [depto ++ U ", " ++ pais]).
Proof.
  unfold _build_location_terms. split.
  - intros E. rewrite bool_decide_eq_true_2 by done.
    split; [done|]. split; [by rewrite length_map|]. split.
    + apply Forall_forall. intros loc (d & -> & Hd)%list_elem_of_fmap. by exists d.
    + intros ->. apply Forall_forall. intros loc (d & -> & Hd)%list_elem_of_fmap.
      by exists d.
  - intros E. by rewrite bool_decide_eq_false_2.
Qed.

Lemma build_location_terms_spec_witness :
  length (_build_location_terms (U " LIMA ") (U "Perú")) = 32%nat
  ∧ Forall (λ loc, U ", Lima, Perú" `suffix_of` loc)
      (_build_location_terms (U " LIMA ") (U "Perú"))
  ∧ _build_location_terms (U "Cusco") (U "Perú") = [U "Cusco, Perú"].
Proof.
  pose proof (build_location_terms_spec (L := latin1) (U " LIMA ") (U "Perú")) as [Hlima _].
  pose proof (build_location_terms_spec (L := latin1) (U "Cusco") (U "Perú")) as [_ Hother].
  destruct Hlima as (_ & Hlen & _ & Hsuf); [reflexivity|].
  split; [exact Hlen|]. split; [apply Hsuf; reflexivity|].
  rewrite Hother; [reflexivity|]. vm_compute. discriminate.
Defined.

(** ** The scroll loop (C5) *)

Lemma left_because_stops env target k why :
  left_because env target k why → ¬ continues env target k.
Proof.
  intros Hwhy (Hk & Hs & Hr & cur & Hc & Hlt & Hok).
  destruct why; simpl in Hwhy.
  - lia.
  - lia.
  - destruct Hwhy as (_ & _ & ?). congruence.
  - destruct Hwhy as (_ & _ & _ & c & ? & ?). simplify_eq. lia.
  - destruct Hwhy as (_ & _ & _ & [?|(c & ? & ? & ?)]); congruence.
Qed.

Lemma wait_if_paused_some fuel flags polls :
  (∃ k, (polls ≤ k < polls + fuel)%nat ∧ (flags k).1 && (flags k).2 = false) →
  ∃ k, _wait_if_paused fuel flags polls = Some k.
Proof.
  revert polls. induction fuel as [|fuel IH]; intros polls (k & Hk & Hfree); [lia|].
  cbn [_wait_if_paused]. destruct (flags polls) as [paused running] eqn:E.
  destruct (paused && running) eqn:Eb; [|by eauto].
  apply IH. exists k. split; [|done].
  destruct (decide (k = polls)) as [->|]; [|lia].
  rewrite E in Hfree. simpl in Hfree. congruence.
Qed.

Lemma wait_if_paused_none fuel flags polls :
  (∀ k, flags k = (true, true)) → _wait_if_paused fuel flags polls = None.
Proof.
  intros Hbusy. revert polls. induction fuel as [|fuel IH]; intros polls; [done|].
  cbn [_wait_if_paused]. rewrite Hbusy. cbn. apply IH.
Qed.

Lemma wait_returns_some patience env i :
  wait_returns patience env i →
  ∃ k, _wait_if_paused patience (wait_flags (env i)) 0 = Some k.
Proof.
  intros (k & Hk & Hfree). apply wait_if_paused_some. exists k. split; [lia|done].
Qed.

Lemma after_scroll_inv env target st current :
  scroll_inv env target st →
  continues env target (scroll_count st) →
  count_now (env (scroll_count st)) = Some current →
  scroll_inv env target (after_scroll current st)
  ∧ scroll_count (after_scroll current st) = S (scroll_count st).
Proof.
  intros (Hp & Hn & Hle & Hsc & Hpast) Hcont Hcur.
  assert (count_at env (scroll_count st) = current) as Hat.
  { unfold count_at. by rewrite Hcur. }
  pose proof Hcont as (Hlt & Hst & _).
  assert (∀ i, (i < S (scroll_count st))%nat → continues env target i) as Hpast'.
  { intros i Hi. destruct (decide (i = scroll_count st)) as [->|]; [done|].
    apply Hpast. lia. }
  unfold after_scroll, scroll_inv.
  destruct (current =? previous st)%Z eqn:E; cbn [previous no_change_count scroll_count];
    (split; [|done]); cbn [unchanged_streak prev_count]; rewrite Hat, <- Hp, E.
  - apply Z.eqb_eq in E. split_and!; try done; lia.
  - split_and!; try done; lia.
Qed.

(** With enough fuel the loop returns, at the first pass that does not
    continue. *)
Lemma scroll_loop_spec patience fuel env target st :
  (∀ i, (i < max_scrolls)%nat → wait_returns patience env i) →
  scroll_inv env target st →
  (max_scrolls < fuel + scroll_count st)%nat →
  ∃ why st',
    scroll_loop patience fuel env target st = Some (why, st')
    ∧ (scroll_count st' ≤ max_scrolls)%nat
    ∧ (∀ i, (i < scroll_count st')%nat → continues env target i)
    ∧ left_because env target (scroll_count st') why.
Proof.
  intros Hwait. revert st. induction fuel as [|fuel IH]; intros st Hinv Hfuel.
  { destruct Hinv as (_ & _ & _ & ? & _). lia. }
  pose proof Hinv as (Hp & Hn & Hle & Hsc & Hpast).
  cbn [scroll_loop].
  destruct (scroll_count st <? max_scrolls)%nat eqn:E1; cbn [negb].
  2: { apply Nat.ltb_ge in E1. exists cap_reached, st. split_and!; try done.
       simpl. lia. }
  apply Nat.ltb_lt in E1.
  destruct (no_change_count st <? max_no_change)%nat eqn:E2; cbn [negb].
  2: { apply Nat.ltb_ge in E2. exists no_change_limit, st. split_and!; try done.
       simpl. lia. }
  apply Nat.ltb_lt in E2. rewrite Hn in E2.
  destruct (running_now (env (scroll_count st))) eqn:E3; cbn [negb].
  2: { exists not_running, st. split_and!; done. }
  destruct (count_now (env (scroll_count st))) as [current|] eqn:E4.
  2: { exists driver_raised, st. split_and!; try done. simpl. split_and!; try done.
       by left. }
  destruct (wait_returns_some patience env (scroll_count st) (Hwait _ E1)) as [polls ->].
  destruct (current >=? target)%Z eqn:E5.
  { exists enough_results, (say (Log (Suficientes_resultados current) success) st).
    split_and!; try done. simpl. split_and!; try done.
    exists current. split; [done|]. lia. }
  destruct (scroll_ok (env (scroll_count st))) eqn:E6; cbn [negb].
  2: { exists driver_raised, st. split_and!; try done. simpl. split_and!; try done.
       right. exists current. split_and!; try done. lia. }
  assert (continues env target (scroll_count st)) as Hcont.
  { split_and!; try done. exists current. split_and!; try done. lia. }
  destruct (after_scroll_inv env target st current Hinv Hcont E4) as [Hinv' Hsc'].
  apply IH; [done|]. rewrite Hsc'. lia.
Qed.

(** A pass whose pause wait never returns is never left. *)
Lemma scroll_loop_blocked patience fuel env target st k :
  scroll_inv env target st →
  (scroll_count st ≤ k)%nat →
  (∀ i, (i < k)%nat → continues env target i) →
  (k < max_scrolls)%nat →
  (unchanged_streak env k < max_no_change)%nat →
  running_now (env k) = true →
  is_Some (count_now (env k)) →
  wait_blocks env k →
  scroll_loop patience fuel env target st = None.
Proof.
  intros Hinv Hle Hpast Hk Hstreak Hrun [current Hcur] Hblock.
  revert st Hinv Hle. induction fuel as [|fuel IH]; intros st Hinv Hle; [done|].
  pose proof Hinv as (Hp & Hn & _).
  cbn [scroll_loop].
  destruct (decide (scroll_count st = k)) as [E|E].
  - rewrite E, Hn, E. apply Nat.ltb_lt in Hk, Hstreak. rewrite Hk, Hstreak, Hrun, Hcur.
    cbn [negb]. by rewrite wait_if_paused_none.
  - destruct (Hpast (scroll_count st)) as (Hlt & Hst & Hr & cur & Hc & Hcur_lt & Hok);
      [lia|].
    assert (continues env target (scroll_count st)) as Hcont by (apply Hpast; lia).
    rewrite Hn. apply Nat.ltb_lt in Hlt, Hst. rewrite Hlt, Hst, Hr, Hc, Hok. cbn [negb].
    destruct (_wait_if_paused _ _ _); [|done].
    destruct (Z.geb_spec cur target); [lia|].
    destruct (after_scroll_inv env target st cur Hinv Hcont Hc) as [Hinv' Hsc'].
    apply IH; [done|]. rewrite Hsc'. lia.
Qed.

Lemma scroll_start_inv env target : scroll_inv env target scroll_start.
Proof. unfold scroll_inv. simpl. split_and!; try done; try lia. Qed.

(** What a streak of [n] passes means. *)
Lemma unchanged_streak_spec env j n :
  (n ≤ unchanged_streak env j)%nat ↔
  (n ≤ j)%nat ∧ ∀ i, (j - n ≤ i < j)%nat → count_at env i = prev_count env i.
Proof.
  revert n. induction j as [|j IH]; intros n.
  - simpl. split; [intros ?; split; [lia|intros; lia]|intros [? _]; lia].
  - cbn [unchanged_streak]. destruct (count_at env j =? prev_count env j)%Z eqn:E.
    + apply Z.eqb_eq in E. destruct n as [|n].
      * split; [intros _; split; [lia|intros; lia]|intros _; lia].
      * rewrite <- Nat.succ_le_mono, IH. split.
        -- intros [Hn Hall]. split; [lia|]. intros i Hi.
           destruct (decide (i = j)) as [->|]; [done|]. apply Hall. lia.
        -- intros [Hn Hall]. split; [lia|]. intros i Hi. apply Hall. lia.
    + apply Z.eqb_neq in E. split.
      * intros Hn. assert (n = 0)%nat as -> by lia. split; [lia|intros; lia].
      * intros [Hn Hall]. destruct n as [|n]; [lia|]. exfalso. apply E, Hall. lia.
Qed.

(** On counts that never shrink, a pass without change is a pass without
    growth. *)
Lemma unchanged_streak_monotone env j :
  (∀ i, (prev_count env i ≤ count_at env i)%Z) →
  unchanged_streak env j = no_growth_streak env j.
Proof.
  intros Hmono. induction j as [|j IH]; [done|]. simpl. rewrite IH.
  specialize (Hmono j).
  destruct (Z.eqb_spec (count_at env j) (prev_count env j)),
           (Z.leb_spec (count_at env j) (prev_count env j)); try done; lia.
Qed.

(** A session that is paused during the third pass and stays paused and
    running: the call does not return, however many tests of the flags are
    allowed. *)
Lemma paused_feed_blocks patience :
  _scroll_extensive patience true paused_feed 20 = None.
Proof.
  unfold _scroll_extensive. cbn [negb].
  rewrite (scroll_loop_blocked patience (S max_scrolls) paused_feed 20 scroll_start 2);
    try done.
  - apply scroll_start_inv.
  - simpl. lia.
  - intros i Hi. unfold continues, max_scrolls, max_no_change.
    assert (i = 0 ∨ i = 1)%nat as [-> | ->] by lia.
    + split_and!; [lia|simpl; lia|reflexivity|]. exists 0%Z. by split_and!.
    + split_and!; [lia|simpl; lia|reflexivity|]. exists 5%Z. by split_and!.
  - unfold max_scrolls. lia.
  - vm_compute. lia.
Qed.

(** The claim C5 fails on counts that shrink: before pass 9 the count has
    failed to grow for 8 passes in a row and the target is not met, yet
    the loop goes on and stops only at the cap of 100 scrolls.  It fails
    as well when the session is paused in a pass and stays paused and
    running: the loop waits in that pass and the call does not return. *)
Lemma scroll_ignores_shrinking_counts :
  no_growth_streak shrinking_feed 9 = 8%nat
  ∧ (count_at shrinking_feed 9 < 1000000)%Z
  ∧ continues shrinking_feed 1000000 9
  ∧ fst <$> _scroll_extensive 1 true shrinking_feed 1000000 = Some (cap_reached, 100%nat)
  ∧ ∀ patience, _scroll_extensive patience true paused_feed 20 = None.
Proof.
  split; [reflexivity|]. split; [reflexivity|].
  split; [|split; [by vm_compute|apply paused_feed_blocks]].
  split_and!; try done; try (by vm_compute).
  - unfold max_scrolls. lia.
  - vm_compute. lia.
  - exists 991%Z. done.
Qed.

(** C5, amended: when every pause wait of the loop returns (in each pass
    some test of the wait finds the session not paused or not running,
    within [patience] tests), the scroll loop ends after at most 100
    scrolls.  It scrolls in pass [i] exactly while fewer than 100 scrolls
    were made, fewer than 8 passes in a row have read a count equal to the
    count recorded before them (0 at the start), the session is running,
    the count is below the target and the driver calls return; it leaves
    at the first pass where one of these fails, target met or not.  A
    count that differs from the recorded one, also a smaller one, restarts
    the streak; on counts that never shrink the streak is the number of
    passes without growth.  When the loop reaches a pass, reads its count
    and the session then stays paused and running, the call does not
    return, whatever the number of tests allowed. *)
Theorem scroll_extensive_converges (patience : nat) (env : nat → observation)
    (target : Z) :
  ((∀ i, (i < 100)%nat → wait_returns patience env i) →
   ∃ why k log,
     _scroll_extensive patience true env target = Some (why, k, log)
     ∧ (k ≤ 100)%nat
     ∧ (∀ i, (i < k)%nat → continues env target i)
     ∧ ¬ continues env target k
     ∧ (∀ j, (∀ i, (i < j)%nat → continues env target i) →
             ¬ continues env target j → j = k)
     ∧ (left_because env target k why
        ∨ why = driver_raised ∧ count_now (env k) = None))
  ∧ (∀ k, (∀ i, (i < k)%nat → continues env target i) →
          (k < 100)%nat → (unchanged_streak env k < 8)%nat →
          running_now (env k) = true → is_Some (count_now (env k)) →
          wait_blocks env k →
          _scroll_extensive patience true env target = None)
  ∧ (∀ j, (8 ≤ unchanged_streak env j)%nat ↔
          (8 ≤ j)%nat ∧ ∀ i, (j - 8 ≤ i < j)%nat → count_at env i = prev_count env i)
  ∧ ((∀ i, (prev_count env i ≤ count_at env i)%Z) →
     ∀ j, unchanged_streak env j = no_growth_streak env j)
  ∧ _scroll_extensive patience false env target
    = Some (driver_raised, 0%nat,
            [Log Cargando_resultados info; Log Error_en_scroll error]).
Proof.
  split; [|split; [|split; [|split; [|done]]]].
  - intros Hwait.
    destruct (scroll_loop_spec patience (S max_scrolls) env target scroll_start)
      as (why & st & Hloop & Hle & Hpast & Hwhy);
      [done|apply scroll_start_inv|unfold max_scrolls; simpl; lia|].
    assert (∀ j, (∀ i, (i < j)%nat → continues env target i) →
                 ¬ continues env target j → j = scroll_count st) as Huniq.
    { intros j Hj Hnj. pose proof (left_because_stops _ _ _ _ Hwhy) as Hk.
      destruct (Nat.lt_trichotomy j (scroll_count st)) as [?|[?|?]]; [|done|].
      - exfalso. by apply Hnj, Hpast.
      - exfalso. by apply Hk, Hj. }
    unfold _scroll_extensive. cbn [negb]. rewrite Hloop.
    pose proof (left_because_stops _ _ _ _ Hwhy) as Hstop.
    destruct why;
      try (destruct (count_now (env (scroll_count st))) as [final|] eqn:Ef;
           eexists _, (scroll_count st), _; split_and!; try done; by eauto).
  - intros k Hpast Hk Hstreak Hrun Hcur Hblock.
    unfold _scroll_extensive. cbn [negb].
    rewrite (scroll_loop_blocked patience (S max_scrolls) env target scroll_start k);
      try done.
    + apply scroll_start_inv.
    + simpl. lia.
  - intros j. apply unchanged_streak_spec.
  - intros Hmono j. by apply unchanged_streak_monotone.
Qed.

Lemma scroll_extensive_converges_witness :
  (∃ why k log, _scroll_extensive 1 true stalled_feed 20 = Some (why, k, log)
                ∧ (k ≤ 100)%nat)
  ∧ _scroll_extensive 1000 true paused_feed 20 = None
  ∧ unchanged_streak stalled_feed 9 = no_growth_streak stalled_feed 9
  ∧ (8 ≤ unchanged_streak stalled_feed 9)%nat.
Proof.
  pose proof (scroll_extensive_converges 1 stalled_feed 20)
    as (Hreturns & _ & Hstreak & Hmono & _).
  pose proof (scroll_extensive_converges 1000 paused_feed 20) as (_ & Hblocks & _).
  split_and!.
  - destruct Hreturns as (why & k & log & Hrun & Hk & _).
    + intros i _. exists 0%nat. split; [lia|reflexivity].
    + by exists why, k, log.
  - apply (Hblocks 2%nat).
    + intros i Hi. unfold continues, max_scrolls, max_no_change.
      assert (i = 0 ∨ i = 1)%nat as [-> | ->] by lia.
      * split_and!; [lia|simpl; lia|reflexivity|]. exists 0%Z. by split_and!.
      * split_and!; [lia|simpl; lia|reflexivity|]. exists 5%Z. by split_and!.
    + lia.
    + vm_compute. lia.
    + reflexivity.
    + by exists 10%Z.
    + intros k. reflexivity.
  - apply Hmono. intros [|i]; by vm_compute.
  - apply Hstreak. split; [lia|]. intros i Hi.
    assert (∃ n, i = S n) as [n ->] by (destruct i; [lia|by eauto]). reflexivity.
Defined.

(** ** Page loading (C6) *)

Lemma stages_app a b : stages (a ++ b) = stages a ++ stages b.
Proof.
  induction a as [|x a IH]; [done|]. destruct x; simpl; by rewrite ?IH.
Qed.

Lemma stages_load_page ok url attempts : stages (load_page ok url attempts) = [].
Proof.
  induction attempts as [|n attempts IH]; [done|]. simpl.
  destruct (ok n); [done|]. by destruct (n <? retry_count)%nat.
Qed.

Lemma stages_visit o n_terms n_locs i j location term :
  stages (visit o n_terms n_locs i j location term)
  = ScrollExtensive ::
    (if running_after_scroll o i j then [ExtractBusinessData] else []).
Proof.
  unfold visit. cbn [stages]. rewrite !stages_app, stages_load_page.
  destruct (_ || _); simpl; by destruct (running_after_scroll o i j).
Qed.

Lemma stages_terms_loop o ok n_terms n_locs i location j terms :
  stages (terms_loop o n_terms n_locs i location j terms)
  = stages (terms_loop (with_goto ok o) n_terms n_locs i location j terms).
Proof.
  revert j. induction terms as [|t terms IH]; intros j; [done|]. cbn [terms_loop].
  change (running_at_term (with_goto ok o)) with (running_at_term o).
  change (running_after_scroll (with_goto ok o)) with (running_after_scroll o).
  destruct (running_at_term o i j); [|done]. cbn [negb].
  destruct (running_after_scroll o i j) eqn:E.
  - rewrite !stages_app, !stages_visit, IH. done.
  - by rewrite !stages_visit.
Qed.

Lemma stages_locations_loop o ok terms n_locs i locations :
  stages (locations_loop o terms n_locs i locations)
  = stages (locations_loop (with_goto ok o) terms n_locs i locations).
Proof.
  revert i. induction locations as [|l locations IH]; intros i; [done|].
  cbn [locations_loop].
  change (running_at_location (with_goto ok o)) with (running_at_location o).
  destruct (running_at_location o i); [|done]. cbn [negb].
  by rewrite !stages_app, IH, (stages_terms_loop o ok).
Qed.

Lemma stages_terms_loop_running o n_terms n_locs i location j terms :
  never_stopped o →
  stages (terms_loop o n_terms n_locs i location j terms)
  = concat (replicate (length terms) [ScrollExtensive; ExtractBusinessData]).
Proof.
  intros (_ & Ht & Hs). revert j. induction terms as [|t terms IH]; intros j; [done|].
  cbn [terms_loop]. rewrite Ht, Hs. cbn [negb].
  rewrite stages_app, stages_visit, Hs, IH. done.
Qed.

Lemma stages_locations_loop_running o terms n_locs i locations :
  never_stopped o →
  stages (locations_loop o terms n_locs i locations)
  = concat (replicate (length locations * length terms)
              [ScrollExtensive; ExtractBusinessData]).
Proof.
  intros Hrun. revert i. induction locations as [|l locations IH]; intros i; [done|].
  cbn [locations_loop]. destruct Hrun as (Hl & Ht & Hs). rewrite Hl. cbn [negb].
  rewrite stages_app, IH, stages_terms_loop_running by done.
  cbn [length]. rewrite <- concat_app, <- replicate_add. done.
Qed.

(** C6: the page load of one location and term calls [page.goto] at
    most 3 times; a failed attempt that is not the last is followed by a
    wait of 2 seconds and the next attempt; an attempt that succeeds ends
    the loop (after the settle wait of 3 seconds); when the 3 attempts
    fail an error is logged.  The scroll stage follows in every case and
    the extraction stage after it while the session is running: the
    stages of a crawl do not depend on the outcomes of the page loads, and
    a crawl that nobody stops scrolls and extracts once for every
    location and term. *)
Theorem load_page_retries (ok : nat → bool) (url : str) (o : crawl_oracle)
    (ok' : nat → nat → nat → bool) (search_terms location_terms : list str) :
  load_page ok url (seq 1 retry_count)
  = (if ok 1%nat
     then [Emit (Log (Cargando_pagina 1) info); PageGoto url;
           Sleep 3000; Emit (Log Pagina_cargada success)]
     else if ok 2%nat
     then [Emit (Log (Cargando_pagina 1) info); PageGoto url; Sleep 2000;
           Emit (Log (Cargando_pagina 2) info); PageGoto url;
           Sleep 3000; Emit (Log Pagina_cargada success)]
     else if ok 3%nat
     then [Emit (Log (Cargando_pagina 1) info); PageGoto url; Sleep 2000;
           Emit (Log (Cargando_pagina 2) info); PageGoto url; Sleep 2000;
           Emit (Log (Cargando_pagina 3) info); PageGoto url;
           Sleep 3000; Emit (Log Pagina_cargada success)]
     else [Emit (Log (Cargando_pagina 1) info); PageGoto url; Sleep 2000;
           Emit (Log (Cargando_pagina 2) info); PageGoto url; Sleep 2000;
           Emit (Log (Cargando_pagina 3) info); PageGoto url;
           Emit (Log Error_cargando_pagina error)])
  ∧ (gotos (load_page ok url (seq 1 retry_count)) ≤ 3)%nat
  ∧ (∀ n_terms n_locs i j location term,
       stages (visit o n_terms n_locs i j location term)
       = ScrollExtensive ::
         (if running_after_scroll o i j then [ExtractBusinessData] else []))
  ∧ stages (drive o search_terms location_terms)
    = stages (drive (with_goto ok' o) search_terms location_terms)
  ∧ (never_stopped o →
     stages (drive o search_terms location_terms)
     = concat (replicate (length location_terms * length search_terms)
                 [ScrollExtensive; ExtractBusinessData])).
Proof.
  split; [|split; [|split; [|split]]].
  - cbn. by destruct (ok 1%nat), (ok 2%nat), (ok 3%nat).
  - cbn. destruct (ok 1%nat), (ok 2%nat), (ok 3%nat); simpl; lia.
  - intros. apply stages_visit.
  - apply stages_locations_loop.
  - apply stages_locations_loop_running.
Qed.

Lemma load_page_retries_witness :
  stages (drive all_loads_fail [U "hotel"; U "hostal"] [U "Cusco, Perú"])
  = [ScrollExtensive; ExtractBusinessData; ScrollExtensive; ExtractBusinessData]
  ∧ gotos (drive all_loads_fail [U "hotel"; U "hostal"] [U "Cusco, Perú"]) = 6%nat.
Proof.
  split; [|reflexivity].
  pose proof (load_page_retries (λ _, false) [] all_loads_fail (λ _ _ _, false)
                [U "hotel"; U "hostal"] [U "Cusco, Perú"]) as (_ & _ & _ & _ & H).
  rewrite H; [reflexivity|]. repeat split.
Defined.

(** ** The command surface (C8, C10) *)




(** C10: when no scraper object has been created, [status()] succeeds
    with running = false, paused = false and a result count of 0, and
    [results()] succeeds with the empty list, while [pause()], [resume()]
    and [stop()] are rejected. *)
Theorem queries_without_session (ending : Scraper → Scraper) (g : Main.Globals) :
  Main.scraper g = None →
  Main.get_status g
  = Main.Ok {| Main.st_is_running := false; Main.st_is_paused := false;
               Main.results_count := 0 |}
  ∧ Main.get_results g = Main.Ok []
  ∧ fst (Main.pause_scraper g) = Main.HTTPException 400 "No active scraper to pause"
  ∧ fst (Main.resume_scraper g) = Main.HTTPException 400 "No active scraper to resume"
  ∧ fst (Main.stop_scraper ending g)
    = Main.HTTPException 400 "No active scraper to stop".
Proof.
  intros Hs.
  unfold Main.get_status, Main.get_results, Main.pause_scraper, Main.resume_scraper,
    Main.stop_scraper.
  by rewrite Hs.
Qed.

Lemma queries_without_session_witness :
  Main.get_status Main.initial
  = Main.Ok {| Main.st_is_running := false; Main.st_is_paused := false;
               Main.results_count := 0 |}
  ∧ Main.get_results Main.initial = Main.Ok [].
Proof.
  destruct (queries_without_session id Main.initial eq_refl) as (H1 & H2 & _).
  by split.
Defined.


(** * Further properties *)

(** ** The extraction pool *)

Lemma count_tasks_insert (P : task → bool) (ts : list task) (i : nat) (t t' : task) :
  ts !! i = Some t →
  (count_tasks P (<[i := t']> ts) + (if P t then 1 else 0)
   = count_tasks P ts + (if P t' then 1 else 0))%nat.
Proof.
  unfold count_tasks. revert i. induction ts as [|x ts IH]; intros i Hi; [done|].
  destruct i as [|i]; simpl in *.
  - injection Hi as ->. destruct (P t), (P t'); simpl; lia.
  - specialize (IH i Hi). destruct (P x); simpl; lia.
Qed.

Lemma count_tasks_ext (P : task → bool) (f : task → task) (ts : list task) :
  (∀ t, P (f t) = P t) → count_tasks P (map f ts) = count_tasks P ts.
Proof.
  intros H. unfold count_tasks. induction ts as [|x ts IH]; [done|]. simpl.
  rewrite H. destruct (P x); simpl; by rewrite IH.
Qed.

Lemma count_tasks_replicate (P : task → bool) (n : nat) (t : task) :
  count_tasks P (replicate n t) = if P t then n else 0%nat.
Proof.
  unfold count_tasks. induction n as [|n IH]; simpl; [by destruct (P t)|].
  destruct (P t) eqn:E; simpl; [by rewrite IH|done].
Qed.

Lemma count_tasks_le (P Q : task → bool) (ts : list task) :
  (∀ t, P t = true → Q t = true) → (count_tasks P ts ≤ count_tasks Q ts)%nat.
Proof.
  intros H. unfold count_tasks. induction ts as [|x ts IH]; [done|]. simpl.
  specialize (H x). destruct (P x), (Q x); simpl; try lia.
Qed.

Lemma count_tasks_all_finished (P : task → bool) (ts : list task) :
  (∀ t, is_finished t = true → P t = false) →
  forallb is_finished ts = true → count_tasks P ts = 0%nat.
Proof.
  intros HP H. unfold count_tasks. induction ts as [|x ts IH]; [done|]. simpl in *.
  apply andb_true_iff in H as [Hx Hts]. rewrite (HP x Hx). by apply IH.
Qed.

Section Pool_invariants.
Context {L : Lowercase}.
Variable max_results : nat.
Variable depto : str.

(** A property kept by every step holds along every run. *)
Lemma run_invariant (I : pool → Prop) acts p q :
  (∀ a p p', I p → step max_results depto a p = Some p' → I p') →
  I p → run max_results depto acts p = Some q → I q.
Proof.
  intros Hstep. revert p. induction acts as [|a acts IH]; intros p Hp; simpl.
  - by intros [= <-].
  - destruct (step _ _ a p) as [p'|] eqn:E; [|done]. apply IH. by apply (Hstep a p).
Qed.



Lemma process_link_slots r c s free here next s' free' :
  process_link max_results depto r c s free here = (next, s', free') →
  (free' + (if holds_slot {| at_pc := next; must_cancel := false |} then 1 else 0)
   = free + (if holds_slot {| at_pc := here; must_cancel := c |} then 1 else 0))%nat.
Proof.
  destruct here; simpl; unfold enter_sem; intros E;
    repeat case_match; simplify_eq; simpl; lia.
Qed.


Lemma holds_slot_at t c :
  holds_slot {| at_pc := at_pc t; must_cancel := c |} = holds_slot t.
Proof. by destruct t. Qed.


Lemma step_slots a p p' :
  slot_inv p → step max_results depto a p = Some p' → slot_inv p'.
Proof.
  unfold slot_inv. intros Hp. destruct a as [i r|links| | | |]; simpl.
  - destruct (tasks p !! i) as [t|] eqn:Ht; [|done].
    destruct (process_link _ _ _ _ _ _ _) as [[next s'] free'] eqn:E.
    intros [= <-]. simpl. apply process_link_slots in E.
    pose proof (count_tasks_insert holds_slot (tasks p) i t
                  {| at_pc := next; must_cancel := false |} Ht) as Hc.
    rewrite holds_slot_at in E. lia.
  - destruct (_ && _) eqn:Hg; [|done]. intros [= <-]. simpl.
    by rewrite count_tasks_replicate.
  - by intros [= <-].
  - by intros [= <-].
  - by intros [= <-].
  - intros [= <-]. simpl. rewrite count_tasks_ext; [done|]. by intros [[] ?].
Qed.

End Pool_invariants.

Lemma announced_app es es' : announced (es ++ es') = announced es ++ announced es'.
Proof. induction es as [|[] es IH]; simpl; by rewrite ?IH. Qed.

Lemma progress_of_app es es' : progress_of (es ++ es') = progress_of es ++ progress_of es'.
Proof. induction es as [|[] es IH]; simpl; by rewrite ?IH. Qed.

Lemma numbered_app first rs rs' :
  numbered first (rs ++ rs') = numbered first rs ++ numbered (first + length rs) rs'.
Proof.
  revert first. induction rs as [|r rs IH]; intros first; simpl.
  - by rewrite Nat.add_0_r.
  - rewrite IH. do 3 f_equal. lia.
Qed.


Section Pool_events.
Context {L : Lowercase}.
Variable max_results : nat.
Variable depto : str.

Lemma accept_events data s :
  events_inv max_results s → events_inv max_results (accept max_results data s).
Proof.
  intros [Ha Hp]. unfold accept. destruct (nombre data); [done|].
  destruct (decide _); [done|]. unfold events_inv. cbn [emitted results].
  rewrite !announced_app, !progress_of_app, Ha, Hp, numbered_app, length_app.
  cbn [length]. rewrite Nat.add_1_r, seq_S, map_app. split.
  - destruct (_ =? _)%nat; simpl; by rewrite ?app_nil_r.
  - destruct (_ =? _)%nat; simpl; by rewrite ?app_nil_r.
Qed.

Lemma emit_log_events msg type s :
  events_inv max_results s → events_inv max_results (_emit_progress (Log msg type) s).
Proof.
  intros [Ha Hp]. unfold events_inv, _emit_progress. cbn [emitted results].
  rewrite announced_app, progress_of_app, Ha, Hp. simpl. by rewrite !app_nil_r.
Qed.

Lemma step_events a p p' :
  events_inv max_results (session p) → step max_results depto a p = Some p' →
  events_inv max_results (session p').
Proof.
  intros Hp. destruct a as [i r|links| | | |]; simpl.
  - destruct (tasks p !! i) as [t|]; [|done].
    destruct (process_link _ _ _ _ _ _ _) as [[next s'] free'] eqn:E.
    apply process_link_cases in E. intros [= <-]. simpl.
    destruct E as [->|[data ->]]; [done|]. by apply accept_events.
  - destruct (_ && _); [|done]. by intros [= <-].
  - intros [= <-]. simpl. unfold stop. by apply emit_log_events.
  - intros [= <-]. simpl. unfold pause. by apply emit_log_events.
  - intros [= <-]. simpl. unfold resume. by apply emit_log_events.
  - by intros [= <-].
Qed.



Lemma process_link_running r c s free here next s' free' :
  process_link max_results depto r c s free here = (next, s', free') →
  is_running s' = is_running s.
Proof.
  intros E. apply process_link_cases in E as [->|[data ->]]; [done|].
  by destruct (accept_cases max_results data s) as [->|(_ & _ & _ & _ & -> & _)].
Qed.

Lemma step_not_running a p p' :
  is_running (session p) = false → step max_results depto a p = Some p' →
  is_running (session p') = false.
Proof.
  intros Hp. destruct a as [i r|links| | | |]; simpl.
  - destruct (tasks p !! i) as [t|]; [|done].
    destruct (process_link _ _ _ _ _ _ _) as [[next s'] free'] eqn:E.
    apply process_link_running in E. intros [= <-]. simpl. congruence.
  - destruct (_ && _); [|done]. by intros [= <-].
  - by intros [= <-].
  - by intros [= <-].
  - by intros [= <-].
  - by intros [= <-].
Qed.

End Pool_events.



(** X2: in every state the pool reaches, the free slots of the semaphore
    and the coroutines past [async with sem] add up to 5: at most 5
    coroutines, hence at most 5 extraction pages, are at work at a time. *)
Theorem at_most_five_at_work `{L : Lowercase} (max_results : nat) (depto : str)
    (acts : list action) (p : pool) :
  run max_results depto acts pool_start = Some p →
  (free_slots p + count_tasks holds_slot (tasks p) = 5)%nat
  ∧ (count_tasks holds_slot (tasks p) ≤ 5)%nat
  ∧ (count_tasks (λ t, has_page (at_pc t)) (tasks p) ≤ 5)%nat.
Proof.
  intros Hrun.
  assert (slot_inv p) as Hslot.
  { apply (run_invariant max_results depto slot_inv acts pool_start p); [|done|done].
    intros a q q'. apply step_slots. }
  unfold slot_inv in Hslot. split; [done|]. split; [lia|].
  assert (count_tasks (λ t, has_page (at_pc t)) (tasks p)
          ≤ count_tasks holds_slot (tasks p))%nat; [|lia].
  apply count_tasks_le. intros [here c]. unfold holds_slot. simpl. by destruct here.
Qed.

Lemma at_most_five_at_work_witness :
  ∃ p, run 10 (U "Lima") seven_started pool_start = Some p
       ∧ free_slots p = 0%nat
       ∧ count_tasks holds_slot (tasks p) = 5%nat.
Proof.
  eexists. split; [vm_compute; reflexivity|]. split; [reflexivity|].
  pose proof (at_most_five_at_work 10 (U "Lima") seven_started) as H.
  edestruct H as (H5 & _); [vm_compute; reflexivity|]. exact H5.
Defined.

(** X3: in every state the pool reaches, the result events emitted so far
    are, in order, the stored records, each with its position in the
    store counted from 1. *)
Theorem result_events_follow_store `{L : Lowercase} (max_results : nat) (depto : str)
    (acts : list action) (p : pool) :
  run max_results depto acts pool_start = Some p →
  announced (emitted (session p)) = numbered 1 (results (session p)).
Proof.
  intros Hrun.
  assert (events_inv max_results (session p)) as [H _]; [|done].
  apply (run_invariant max_results depto (λ q, events_inv max_results (session q))
           acts pool_start p); [|by split|done].
  intros a q q'. apply step_events.
Qed.

Lemma result_events_follow_store_witness :
  ∃ p, run 10 (U "Lima") two_boticas pool_start = Some p
       ∧ announced (emitted (session p)) = [(botica_central', 1%nat)].
Proof.
  eexists. split; [vm_compute; reflexivity|].
  rewrite (result_events_follow_store 10 (U "Lima") two_boticas); [reflexivity|].
  vm_compute. reflexivity.
Defined.



(** X5: once the running flag is false it stays false whatever the
    coroutines, [pause()] and [resume()] do, and a coroutine that has not
    started ends at its first resumption without taking a slot, opening a
    page or touching the store. *)
Theorem stopped_stays_stopped `{L : Lowercase} (max_results : nat) (depto : str)
    (acts : list action) (p q : pool) :
  is_running (session p) = false →
  run max_results depto acts p = Some q →
  is_running (session q) = false
  ∧ ∀ r c, ∃ b, process_link max_results depto r c (session q) (free_slots q) created
              = (finished b, session q, free_slots q).
Proof.
  intros Hp Hrun.
  assert (is_running (session q) = false) as Hq.
  { apply (run_invariant max_results depto (λ x, is_running (session x) = false)
             acts p q); [|done|done].
    intros a x x'. apply step_not_running. }
  split; [done|]. intros r c. simpl. rewrite Hq.
  destruct c; by eauto.
Qed.

Lemma stopped_stays_stopped_witness :
  match run 10 (U "Lima") stop_during_address pool_start with
  | Some p =>
    match run 10 (U "Lima") (Resume :: Pause :: after_the_stop) p with
    | Some q => is_running (session q) = false
    | None => False
    end
  | None => False
  end.
Proof.
  destruct (run 10 (U "Lima") stop_during_address pool_start) as [p|] eqn:Hp;
    [|by vm_compute in Hp].
  destruct (run 10 (U "Lima") (Resume :: Pause :: after_the_stop) p) as [q|] eqn:Hq.
  - apply (stopped_stays_stopped 10 (U "Lima") (Resume :: Pause :: after_the_stop) p q);
      [|done].
    vm_compute in Hp. by injection Hp as <-.
  - vm_compute in Hp. injection Hp as <-. by vm_compute in Hq.
Defined.

(** ** DedupKey and text normalisation *)

Lemma split_nil_iff s : split s = [] ↔ forallb isspace s = true.
Proof.
  induction s as [|c t IH]; [done|]. destruct (isspace c) eqn:E.
  - rewrite split_cons_space by done. simpl. by rewrite E.
  - destruct (split_nonspace_cons c t E) as (w & ws & ->). simpl. rewrite E.
    split; done.
Qed.

Lemma sub_ws_from_word b w rest :
  w ≠ [] → forallb nonspace w = true →
  sub_ws_from b (w ++ rest) = w ++ sub_ws_from false rest.
Proof.
  intros Hne Hw. revert b. induction w as [|c w IH]; intros b; [done|].
  simpl in Hw. apply andb_true_iff in Hw as [Hc Hw]. apply negb_true_iff in Hc.
  simpl. rewrite Hc. f_equal. destruct w as [|d w]; [done|]. by apply IH.
Qed.

Lemma sub_ws_from_join_sp b w ws :
  Forall is_word (w :: ws) → sub_ws_from b (join_sp (w :: ws)) = join_sp (w :: ws).
Proof.
  revert b w. induction ws as [|w' ws IH]; intros b w Hall;
    inversion Hall as [|? ? [Hne Hw] Hws]; subst.
  - simpl. rewrite <- (app_nil_r w) at 1. rewrite sub_ws_from_word by done.
    simpl. by rewrite app_nil_r.
  - rewrite join_sp_cons. rewrite sub_ws_from_word by done. f_equal.
    cbn [sub_ws_from]. change (isspace SPACE) with true. cbn iota. f_equal.
    by apply IH.
Qed.

Lemma sub_ws_join_sp ws : Forall is_word ws → sub_ws (join_sp ws) = join_sp ws.
Proof. destruct ws; [done|]. apply sub_ws_from_join_sp. Qed.

Lemma starts_space_lstrip s : starts_space (lstrip s) = false.
Proof.
  induction s as [|c t IH]; [done|]. simpl. destruct (isspace c) eqn:E; [done|].
  simpl. done.
Qed.

Lemma ends_space_rstrip s : ends_space (rstrip s) = false.
Proof. unfold ends_space, rstrip. rewrite rev_involutive. apply starts_space_lstrip. Qed.

Lemma starts_space_rstrip s : starts_space s = false → starts_space (rstrip s) = false.
Proof.
  destruct s as [|c t]; [done|]. simpl. intros Hc. rewrite rstrip_cons.
  destruct (rstrip t); simpl; by rewrite ?Hc.
Qed.

Section Key_facts.
Context {L : Lowercase}.

Lemma lower_join_sp ws :
  Forall is_word ws → lower (join_sp ws) = join_sp (map lower ws).
Proof.
  induction 1 as [|w ws Hw Hws IH]; [apply lower_nil|].
  cbn [map]. rewrite !join_sp_cons. destruct ws as [|w' ws']; [done|].
  rewrite lower_sep by done. cbn [map] in *. by rewrite IH.
Qed.

End Key_facts.

(** X6: two pairs of strings get the same DedupKey exactly when the
    lowercased names have the same words and the lowercased addresses
    have the same words, whatever whitespace separates or surrounds them;
    a component of the key is empty exactly when the string is empty or
    all whitespace. *)
Theorem make_key_equal_iff `{L : Lowercase} (name address name' address' : str) :
  (_make_key name address = _make_key name' address'
   ↔ split (lower name) = split (lower name')
     ∧ split (lower address) = split (lower address'))
  ∧ (norm name = [] ↔ forallb isspace name = true).
Proof.
  assert (∀ a b, norm a = norm b ↔ split (lower a) = split (lower b)) as Hnorm.
  { intros a b. rewrite !norm_join_split. split; [|by intros ->].
    intros E. apply (f_equal split) in E.
    by rewrite !split_join_sp in E by apply split_words. }
  split.
  - unfold _make_key. rewrite <- !Hnorm. split; [by intros [= -> ->]|by intros [-> ->]].
  - rewrite norm_join_split, join_split_nil_iff, split_lower, <- split_nil_iff.
    by destruct (split name).
Qed.

(** X7: a component of the DedupKey is in normal form: lowercasing it,
    collapsing its whitespace or stripping it changes nothing, and it
    neither starts nor ends with whitespace. *)
Theorem make_key_normal_form `{L : Lowercase} (s : str) :
  lower (norm s) = norm s
  ∧ sub_ws (norm s) = norm s
  ∧ strip (norm s) = norm s
  ∧ starts_space (norm s) = false ∧ ends_space (norm s) = false.
Proof.
  assert (starts_space (norm s) = false ∧ ends_space (norm s) = false) as [Hs He].
  { unfold norm, strip. split; [|apply ends_space_rstrip].
    apply starts_space_rstrip, starts_space_lstrip. }
  split_and!; try done.
  - rewrite !norm_join_split. rewrite lower_join_sp by apply split_words. f_equal.
    rewrite split_lower, map_map. apply map_ext. intros w. apply lower_lower.
  - rewrite !norm_join_split. apply sub_ws_join_sp, split_words.
  - by apply strip_tight.
Qed.

(** ** Search-space expansion *)

Section Expand_more.
Context {L : Lowercase}.

(** Either some entry matches, and then there is a first one, or none
    does. *)
Lemma first_match_or_none items rubro :
  (∃ before key synonyms after,
     items = before ++ (key, synonyms) :: after
     ∧ matches_key rubro key synonyms
     ∧ ∀ k s, (k, s) ∈ before → ¬ matches_key rubro k s)
  ∨ (∀ k s, (k, s) ∈ items → ¬ matches_key rubro k s).
Proof.
  induction items as [|[k s] items IH].
  - right. intros ? ? H. by apply elem_of_nil in H.
  - destruct (term_matches (_normalize_text rubro) k s) eqn:E.
    + left. apply term_matches_spec in E. exists [], k, s, items.
      split_and!; try done. intros ? ? H. by apply elem_of_nil in H.
    + assert (¬ matches_key rubro k s) as Hk.
      { intros H. apply term_matches_spec in H. congruence. }
      destruct IH as [(before & key & syns & after & -> & Hyes & Hno)|Hnone].
      * left. exists ((k, s) :: before), key, syns, after. split_and!; try done.
        intros k' s' [[= -> ->]|H]%elem_of_cons; [done|]. by apply Hno.
      * right. intros k' s' [[= -> ->]|H]%elem_of_cons; [done|]. by apply Hnone.
Qed.

Lemma expand_search_term_first before key synonyms after rubro :
  sinonimos = before ++ (key, synonyms) :: after →
  matches_key rubro key synonyms →
  (∀ k s, (k, s) ∈ before → ¬ matches_key rubro k s) →
  expand_search_term rubro = take 3 (nub_by _normalize_text (rubro :: synonyms)).
Proof.
  intros E Hyes Hno. unfold expand_search_term.
  rewrite E, (expand_over_first before key synonyms after rubro Hno Hyes).
  rewrite (matches_key_strip rubro key synonyms), unique_terms_empty; [done| |done].
  rewrite E. apply elem_of_app. right. by left.
Qed.

End Expand_more.

(** X8: for every category, matched or not, the expansion starts with
    the category itself, has between 1 and 3 terms, holds no two terms
    with the same normalised form, and every further term is a synonym of
    a table entry that the category matches.  A category with whitespace
    at one of its ends is never expanded. *)
Theorem expand_search_term_shape `{L : Lowercase} (rubro : str) :
  head (expand_search_term rubro) = Some rubro
  ∧ (1 ≤ length (expand_search_term rubro) ≤ 3)%nat
  ∧ NoDup (map _normalize_text (expand_search_term rubro))
  ∧ (∀ term, term ∈ tail (expand_search_term rubro) →
       ∃ key synonyms, (key, synonyms) ∈ sinonimos ∧ term ∈ synonyms
                       ∧ matches_key rubro key synonyms)
  ∧ (strip rubro ≠ rubro → expand_search_term rubro = [rubro]).
Proof.
  destruct (first_match_or_none sinonimos rubro)
    as [(before & key & syns & after & E & Hyes & Hno)|Hnone].
  - assert ((key, syns) ∈ sinonimos) as Hin.
    { rewrite E. apply elem_of_app. right. by left. }
    rewrite (expand_search_term_first before key syns after rubro E Hyes Hno).
    split_and!.
    + done.
    + rewrite length_take. cbn [nub_by length]. lia.
    + rewrite length_take. lia.
    + eapply sublist_NoDup; [apply (nub_by_NoDup _normalize_text (rubro :: syns))|].
      apply fmap_sublist, sublist_take.
    + intros term Hterm. exists key, syns. split_and!; try done.
      cbn [nub_by take tail] in Hterm.
      eapply elem_of_sublist in Hterm; [|apply sublist_take].
      apply list_elem_of_filter in Hterm as [_ Hterm].
      eapply elem_of_sublist; [done|apply nub_by_sublist].
    + intros Hstrip. exfalso. apply Hstrip.
      by apply (matches_key_strip rubro key syns).
  - unfold expand_search_term. rewrite (expand_over_none _ _ Hnone).
    split_and!; try done.
    + simpl. lia.
    + apply NoDup_singleton.
    + intros term Hterm. by apply elem_of_nil in Hterm.
Qed.

Lemma expand_search_term_shape_witness :
  expand_search_term (U " hotel ") = [U " hotel "]
  ∧ (∃ key synonyms, (key, synonyms) ∈ sinonimos ∧ U "mining" ∈ synonyms
                     ∧ matches_key (U "ia") key synonyms).
Proof.
  pose proof (expand_search_term_shape (L := latin1) (U " hotel ")) as (_ & _ & _ & _ & H).
  pose proof (expand_search_term_shape (L := latin1) (U "ia")) as (_ & _ & _ & Hsyn & _).
  split.
  - apply H. vm_compute. discriminate.
  - apply Hsyn. vm_compute. by left.
Defined.

(** X9: normalised text contains none of the letters á, é, í, ó, ú, ñ,
    and whitespace is left where it is: the normalised text starts (ends)
    with whitespace exactly when the text does, and contains whitespace
    exactly when the text does. *)
Theorem normalize_text_shape `{L : Lowercase} (text : str) :
  Forall (λ c, c ∉ [225; 233; 237; 243; 250; 241]) (_normalize_text text)
  ∧ starts_space (_normalize_text text) = starts_space text
  ∧ ends_space (_normalize_text text) = ends_space text
  ∧ forallb nonspace (_normalize_text text) = forallb nonspace text.
Proof.
  split_and!.
  - apply Forall_forall.
    intros c. rewrite normalize_text_map. intros (d & -> & _)%list_elem_of_fmap.
    unfold deaccent.
    repeat (match goal with |- context [?x =? ?y] => destruct (N.eqb_spec x y) end);
      subst; intros Hin; apply list_elem_of_In in Hin; simpl in Hin;
      repeat (destruct Hin as [Hin|Hin]; [lia|]); done.
  - apply starts_space_normalize.
  - apply ends_space_normalize.
  - apply forallb_nonspace_normalize.
Qed.

(** ** Locations *)

Lemma distritos_lima_NoDup : NoDup distritos_lima.
Proof. apply (bool_decide_unpack _). by vm_compute. Qed.

(** X10: for every region and country the list of locations is not
    empty, holds no location twice, and every location ends with the
    country. *)
Theorem build_location_terms_distinct `{L : Lowercase} (depto pais : str) :
  _build_location_terms depto pais ≠ []
  ∧ NoDup (_build_location_terms depto pais)
  ∧ Forall (λ loc, pais `suffix_of` loc) (_build_location_terms depto pais).
Proof.
  unfold _build_location_terms. destruct (bool_decide _).
  - split_and!.
    + done.
    + apply NoDup_fmap_2_strong; [|apply distritos_lima_NoDup].
      intros x y _ _ E. by apply app_inv_tail in E.
    + apply Forall_forall. intros loc (d & -> & _)%list_elem_of_fmap.
      exists (d ++ U ", Lima, "). by rewrite <- app_assoc.
  - split_and!; [done|apply NoDup_singleton|].
    apply Forall_singleton. exists (depto ++ U ", "). by rewrite <- app_assoc.
Qed.

(** ** The crawl *)

Lemma gotos_app a b : gotos (a ++ b) = (gotos a + gotos b)%nat.
Proof. induction a as [|x a IH]; [done|]. destruct x; simpl; by rewrite ?IH. Qed.

Lemma gotos_load_page ok url attempts :
  (gotos (load_page ok url attempts) ≤ length attempts)%nat.
Proof.
  induction attempts as [|n attempts IH]; [done|]. simpl.
  destruct (ok n); [simpl; lia|]. destruct (n <? retry_count)%nat; simpl; lia.
Qed.

Lemma gotos_visit o n_terms n_locs i j location term :
  (gotos (visit o n_terms n_locs i j location term) ≤ 3)%nat.
Proof.
  unfold visit. cbn [gotos]. rewrite !gotos_app.
  pose proof (gotos_load_page (goto_ok o i j) (search_url term location)
                (seq 1 retry_count)) as H.
  rewrite length_seq in H. unfold retry_count in *.
  set (g := gotos (load_page _ _ _)) in *. clearbody g.
  destruct (_ || _); destruct (running_after_scroll o i j); simpl; lia.
Qed.

Lemma gotos_terms_loop o n_terms n_locs i location j terms :
  (gotos (terms_loop o n_terms n_locs i location j terms) ≤ 3 * length terms)%nat.
Proof.
  revert j. induction terms as [|t terms IH]; intros j; [done|]. cbn [terms_loop length].
  destruct (running_at_term o i j); cbn [negb gotos]; [|lia].
  pose proof (gotos_visit o n_terms n_locs i j location t) as Hv.
  destruct (running_after_scroll o i j) eqn:E; [|lia].
  rewrite gotos_app. specialize (IH (S j)). lia.
Qed.

Lemma gotos_locations_loop o terms n_locs i locations :
  (gotos (locations_loop o terms n_locs i locations)
   ≤ 3 * length terms * length locations)%nat.
Proof.
  revert i. induction locations as [|l locations IH]; intros i; [simpl; lia|].
  cbn [locations_loop length]. destruct (running_at_location o i); cbn [negb gotos]; [|lia].
  rewrite gotos_app. specialize (IH (S i)).
  pose proof (gotos_terms_loop o (length terms) n_locs i l 1 terms). lia.
Qed.

Lemma first_loads_load_page ok url tail :
  first_loads (load_page ok url (seq 1 retry_count) ++ ScrollExtensive :: tail)
  = url :: first_loads tail.
Proof. cbn. by destruct (ok 1%nat), (ok 2%nat), (ok 3%nat). Qed.

Lemma first_loads_visit o n_terms n_locs i j location term rest :
  first_loads (visit o n_terms n_locs i j location term ++ rest)
  = search_url term location :: first_loads rest.
Proof.
  unfold visit. generalize (search_url term location) as url. intros url.
  cbn [app first_loads].
  destruct (_ || _); cbn [app first_loads]; rewrite <- !app_assoc;
    cbn [app]; rewrite first_loads_load_page; by destruct (running_after_scroll o i j).
Qed.

Lemma first_loads_terms_loop o n_terms n_locs i location j terms rest :
  never_stopped o →
  first_loads (terms_loop o n_terms n_locs i location j terms ++ rest)
  = map (λ term, search_url term location) terms ++ first_loads rest.
Proof.
  intros (_ & Ht & Hs). revert j. induction terms as [|t terms IH]; intros j; [done|].
  cbn [terms_loop]. rewrite Ht, Hs. cbn [negb]. rewrite <- app_assoc.
  rewrite first_loads_visit, IH. done.
Qed.

Lemma first_loads_locations_loop o terms n_locs i locations :
  never_stopped o →
  first_loads (locations_loop o terms n_locs i locations)
  = concat (map (λ location, map (λ term, search_url term location) terms) locations).
Proof.
  intros Hrun. revert i. induction locations as [|l locations IH]; intros i; [done|].
  cbn [locations_loop]. destruct Hrun as (Hl & Ht & Hs). rewrite Hl. cbn [negb].
  rewrite first_loads_terms_loop by done. cbn [map concat]. by rewrite IH.
Qed.

Section Crawl_facts.
Context {L : Lowercase}.

Lemma expand_search_term_length rubro : (length (expand_search_term rubro) ≤ 3)%nat.
Proof.
  destruct (first_match_or_none sinonimos rubro)
    as [(before & key & syns & after & E & Hyes & Hno)|Hnone].
  - rewrite (expand_search_term_first before key syns after rubro E Hyes Hno).
    rewrite length_take. lia.
  - unfold expand_search_term. rewrite (expand_over_none _ _ Hnone). simpl. lia.
Qed.

Lemma build_location_terms_length depto pais :
  (length (_build_location_terms depto pais) ≤ 32)%nat.
Proof.
  unfold _build_location_terms. destruct (bool_decide _); [|simpl; lia].
  rewrite length_map. by vm_compute.
Qed.

End Crawl_facts.

(** X11: whatever the category, the region and the answers of the page,
    a session makes at most 288 page loads (3 attempts for each of at most
    3 terms in each of at most 32 locations); without synonym expansion it
    makes at most 3 for every location. *)
Theorem crawl_page_loads_bounded `{L : Lowercase} (o : crawl_oracle)
    (rubro depto pais : str) (expanded_search : bool) :
  (gotos (crawl o rubro depto pais expanded_search) ≤ 288)%nat
  ∧ (gotos (crawl o rubro depto pais false)
     ≤ 3 * length (_build_location_terms depto pais))%nat.
Proof.
  unfold crawl, drive. split.
  - etrans; [apply gotos_locations_loop|].
    pose proof (build_location_terms_length depto pais) as Hl.
    assert (length (search_terms_of rubro expanded_search) ≤ 3)%nat as Ht.
    { unfold search_terms_of. destruct expanded_search; [|simpl; lia].
      apply expand_search_term_length. }
    nia.
  - etrans; [apply gotos_locations_loop|]. simpl. lia.
Qed.

(** X12: in a session that nobody stops, the first load attempts are made
    in the order of the plan: for every location in turn, every search
    term in turn, each at the search URL of the term and the location,
    whatever the outcomes of the loads.  No search URL contains a space. *)
Theorem crawl_visits_plan_in_order `{L : Lowercase} (o : crawl_oracle)
    (rubro depto pais : str) (expanded_search : bool) :
  (never_stopped o →
   first_loads (crawl o rubro depto pais expanded_search)
   = concat (map (λ location,
                    map (λ term, search_url term location)
                        (search_terms_of rubro expanded_search))
                 (_build_location_terms depto pais)))
  ∧ (∀ term location, SPACE ∉ search_url term location).
Proof.
  split.
  - intros Hrun. unfold crawl, drive. by apply first_loads_locations_loop.
  - intros term location. unfold search_url, replace.
    change (U " ") with [SPACE]. change (U "+") with [43].
    rewrite replace_from_single. intros [Hin|Hin]%elem_of_app.
    + apply list_elem_of_In in Hin. vm_compute in Hin.
      repeat (destruct Hin as [Hin|Hin]; [discriminate|]). done.
    + apply list_elem_of_fmap in Hin as (c & Hc & _).
      destruct (N.eqb_spec c SPACE); [discriminate|]. by subst.
Qed.

Lemma crawl_visits_plan_in_order_witness :
  first_loads (crawl all_loads_fail (U "hotel") (U "Cusco") (U "Perú") true)
  = [U "https://www.google.com/maps/search/hotel+en+Cusco,+Perú";
     U "https://www.google.com/maps/search/hospedaje+en+Cusco,+Perú";
     U "https://www.google.com/maps/search/alojamiento+en+Cusco,+Perú"].
Proof.
  pose proof (crawl_visits_plan_in_order (L := latin1) all_loads_fail
                (U "hotel") (U "Cusco") (U "Perú") true) as [H _].
  rewrite H; [reflexivity|]. repeat split.
Defined.

(** ** Scrolling and waiting *)

Lemma unchanged_streak_constant c j :
  unchanged_streak (constant_feed c) j = if (c =? 0)%Z then j else pred j.
Proof.
  induction j as [|j IH]; [by destruct (c =? 0)%Z|].
  cbn [unchanged_streak]. rewrite IH. unfold count_at. cbn [constant_feed count_now default].
  destruct j as [|i]; cbn [prev_count]; unfold id.
  - by destruct (c =? 0)%Z.
  - unfold count_at. cbn. unfold id. rewrite Z.eqb_refl. by destruct (c =? 0)%Z.
Qed.

(** X13: on a page whose count never changes and stays below the target,
    in a session that is running and not paused, the loop gives up after 9
    scrolls, or after 8 when the page shows nothing (the recorded count
    starts at 0); when the first read meets the target it does not scroll
    at all. *)
Theorem scroll_on_constant_feed (patience : nat) (c target : Z) :
  ((c < target)%Z →
   fst <$> _scroll_extensive (S patience) true (constant_feed c) target
   = Some (no_change_limit, if (c =? 0)%Z then 8%nat else 9%nat))
  ∧ ((target ≤ c)%Z →
     fst <$> _scroll_extensive (S patience) true (constant_feed c) target
     = Some (enough_results, 0%nat)).
Proof.
  split.
  - intros Hlt.
    destruct (scroll_loop_spec (S patience) (S max_scrolls) (constant_feed c) target
                scroll_start)
      as (why & st & Hloop & Hle & Hpast & Hwhy);
      [intros i _; exists 0%nat; split; [lia|reflexivity]
      |apply scroll_start_inv|unfold max_scrolls; simpl; lia|].
    unfold _scroll_extensive. cbn [negb]. rewrite Hloop.
    assert (why = no_change_limit
            ∧ scroll_count st = if (c =? 0)%Z then 8%nat else 9%nat) as [-> ->].
    { destruct why; simpl in Hwhy.
      - exfalso. destruct (Hpast 99%nat) as (_ & Hs & _); [unfold max_scrolls in *; lia|].
        rewrite unchanged_streak_constant in Hs. unfold max_no_change in Hs.
        destruct (c =? 0)%Z; simpl in Hs; lia.
      - split; [done|]. destruct Hwhy as [_ Hs].
        rewrite unchanged_streak_constant in Hs. unfold max_no_change in Hs.
        destruct (c =? 0)%Z; [done|]. destruct (scroll_count st); simpl in Hs; lia.
      - by destruct Hwhy as (_ & _ & ?).
      - destruct Hwhy as (_ & _ & _ & cur & [= <-] & ?). lia.
      - destruct Hwhy as (_ & _ & _ & [?|(cur & _ & _ & ?)]); done. }
    done.
  - intros Hge. unfold _scroll_extensive. cbn.
    destruct (Z.geb_spec c target); [done|lia].
Qed.

Lemma scroll_on_constant_feed_witness :
  fst <$> _scroll_extensive 1 true (constant_feed 0) 20 = Some (no_change_limit, 8%nat)
  ∧ fst <$> _scroll_extensive 1 true (constant_feed 25) 20 = Some (enough_results, 0%nat).
Proof.
  destruct (scroll_on_constant_feed 0 0 20) as [H0 _].
  destruct (scroll_on_constant_feed 0 25 20) as [_ H25].
  split; [apply H0|apply H25]; lia.
Defined.

Lemma wait_if_paused_from fuel flags polls k :
  (∀ i, (polls ≤ i < k)%nat → flags i = (true, true)) →
  (flags k).1 && (flags k).2 = false →
  (polls ≤ k)%nat → (k - polls < fuel)%nat →
  _wait_if_paused fuel flags polls = Some k.
Proof.
  revert polls. induction fuel as [|fuel IH]; intros polls Hbusy Hfree Hle Hfuel; [lia|].
  cbn [_wait_if_paused]. destruct (decide (polls = k)) as [->|Hne].
  - destruct (flags k) as [paused running]. simpl in Hfree. by rewrite Hfree.
  - rewrite Hbusy by lia. cbn. apply IH; try done; try lia.
    intros i Hi. apply Hbusy. lia.
Qed.

(** X14: [_wait_if_paused] returns after as many sleeps as there are
    tests of its condition that find the session paused and running: it
    returns at the first test that finds it not paused or not running, at
    once if that is the first test.  After [stop()] and after [resume()]
    the condition is false. *)
Theorem wait_if_paused_returns (fuel : nat) (flags : nat → bool * bool) (k : nat)
    (s : Scraper) :
  ((∀ i, (i < k)%nat → flags i = (true, true)) →
   (flags k).1 && (flags k).2 = false →
   (k < fuel)%nat →
   _wait_if_paused fuel flags 0 = Some k)
  ∧ is_paused (stop s) && is_running (stop s) = false
  ∧ is_paused (resume s) && is_running (resume s) = false
  ∧ is_paused (pause s) && is_running (pause s) = is_running s.
Proof.
  split_and!; try done.
  intros Hbusy Hfree Hfuel. apply wait_if_paused_from; try done; try lia.
  intros i Hi. apply Hbusy. lia.
Qed.

Lemma wait_if_paused_returns_witness :
  _wait_if_paused 10 (λ i, (true, (i <? 3)%nat)) 0 = Some 3%nat.
Proof.
  destruct (wait_if_paused_returns 10 (λ i, (true, (i <? 3)%nat)) 3 new_scraper) as [H _].
  apply H; [|reflexivity|lia].
  intros i Hi. destruct (Nat.ltb_spec i 3); [done|lia].
Defined.

(** ** The export *)

Lemma fill_texts_lookup row col vs ws r c :
  fill_texts row col vs ws !! (r, c)
  = if decide (r = row ∧ (col ≤ c < col + length vs)%nat)
    then (λ v, Text (take max_cell_length v)) <$> vs !! (c - col)%nat
    else ws !! (r, c).
Proof.
  revert col ws. induction vs as [|v vs IH]; intros col ws; cbn [fill_texts length].
  { case_decide; [lia|done]. }
  rewrite IH, lookup_insert.
  destruct (decide (r = row ∧ (col ≤ c < col + S (length vs))%nat)) as [[-> Hc]|Hn].
  - destruct (decide (c = col)) as [->|Hne].
    + rewrite Nat.sub_diag, decide_False by lia. by rewrite decide_True.
    + rewrite decide_True by lia.
      by replace (c - col)%nat with (S (c - S col)) by lia.
  - rewrite decide_False by lia. rewrite decide_False; [done|].
    intros [= <- <-]. lia.
Qed.

Lemma fill_row_lookup idx d ws r c :
  fill_row idx d ws !! (r, c)
  = if decide (r = idx)
    then match row_cell idx d c with Some x => Some x | None => ws !! (r, c) end
    else ws !! (r, c).
Proof.
  unfold fill_row. rewrite fill_texts_lookup, lookup_insert.
  change (length (texts_of d)) with 8%nat.
  destruct (decide (r = idx)) as [->|Hne].
  - destruct c as [|[|c]]; cbn [row_cell].
    + rewrite decide_False by lia. by rewrite decide_False by (intros [=]).
    + rewrite decide_False by lia. by rewrite decide_True.
    + rewrite Nat.sub_succ, Nat.sub_succ, Nat.sub_0_r.
      destruct (decide (c < 8)%nat).
      * rewrite decide_True by lia.
        destruct (texts_of d !! c) eqn:E; [done|].
        apply lookup_ge_None in E. change (length (texts_of d)) with 8%nat in E. lia.
      * rewrite decide_False by lia. rewrite decide_False by (intros [=]).
        rewrite lookup_ge_None_2; [done|]. change (length (texts_of d)) with 8%nat. lia.
  - rewrite decide_False by (intros [? _]; done).
    by rewrite decide_False by (intros [=]; done).
Qed.

Lemma fill_rows_lookup idx rows ws r c :
  fill_rows idx rows ws !! (r, c)
  = match (if decide (idx ≤ r)%nat then rows !! (r - idx)%nat else None) with
    | Some d => match row_cell r d c with Some x => Some x | None => ws !! (r, c) end
    | None => ws !! (r, c)
    end.
Proof.
  revert idx ws. induction rows as [|d rows IH]; intros idx ws; cbn [fill_rows].
  { by case_decide. }
  rewrite IH, fill_row_lookup.
  destruct (decide (r = idx)) as [->|Hne].
  - rewrite decide_False by lia. rewrite decide_True by lia.
    by rewrite Nat.sub_diag.
  - destruct (decide (idx ≤ r)%nat) as [Hle|Hgt].
    + rewrite decide_True by lia.
      by replace (r - idx)%nat with (S (r - S idx)) by lia.
    + by rewrite decide_False by lia.
Qed.

Lemma find_app {A} (f : A → bool) (l1 l2 : list A) :
  List.find f (l1 ++ l2)
  = match List.find f l1 with Some x => Some x | None => List.find f l2 end.
Proof. induction l1 as [|x l1 IH]; [done|]. simpl. by destruct (f x). Qed.

Lemma write_row_spec idx d ws :
  write_row idx d ws
  = match List.find unwritable (texts_of d) with
    | Some v => Raised (IllegalCharacterError (take max_cell_length v))
    | None => Returned (fill_row idx d ws)
    end.
Proof.
  unfold write_row, fill_row, texts_of, ws_cell. cbn [List.find fill_texts].
  repeat (match goal with
          | |- context [unwritable ?v] =>
            destruct (unwritable v); cbn [mbind outcome_bind]; [reflexivity|]
          end).
  reflexivity.
Qed.

(** The rows are written up to the first text that openpyxl refuses. *)
Lemma write_rows_spec idx rows ws :
  write_rows idx rows ws
  = match List.find unwritable (all_texts rows) with
    | Some v => Raised (IllegalCharacterError (take max_cell_length v))
    | None => Returned (fill_rows idx rows ws)
    end.
Proof.
  revert idx ws. induction rows as [|d rows IH]; intros idx ws; [done|].
  cbn [write_rows fill_rows]. unfold all_texts. cbn [map concat].
  rewrite write_row_spec, find_app.
  destruct (List.find unwritable (texts_of d)); cbn [mbind outcome_bind]; [done|].
  apply IH.
Qed.

Lemma write_headers_spec col hs ws :
  List.find unwritable hs = None →
  write_headers col hs ws = Returned (fill_texts 1 col hs ws).
Proof.
  revert col ws. induction hs as [|h hs IH]; intros col ws; [done|].
  cbn [List.find write_headers fill_texts]. unfold ws_cell.
  destruct (unwritable h); [done|]. intros Hhs. cbn [mbind outcome_bind]. by apply IH.
Qed.

Lemma headers_written :
  List.find unwritable headers = None
  ∧ ∀ c, (λ v, Text (take max_cell_length v)) <$> headers !! c = Text <$> headers !! c.
Proof.
  split; [by vm_compute|]. intros c.
  do 9 (destruct c as [|c]; [by vm_compute|]). done.
Qed.

(** The outcome of the export in terms of its inputs. *)
Lemma export_to_excel_cases join fecha makedirs_error save_error rubro depto s :
  results s ≠ [] →
  export_to_excel join fecha makedirs_error save_error rubro depto s
  = match makedirs_error with
    | Some text => Raised (OtherError text)
    | None =>
      match List.find unwritable (all_texts (results s)) with
      | Some v => Raised (IllegalCharacterError (take max_cell_length v))
      | None =>
        match save_error with
        | Some text => Raised (OtherError text)
        | None =>
          let folder :=
            replace (U "/") (U "-") (replace (U " ") (U "_") (strip rubro)) in
          let name :=
            folder ++ U "-" ++ replace (U " ") (U "_") (strip depto) ++ U "-"
            ++ fecha ++ U ".xlsx" in
          Returned {| filepath := join (join base_folder folder) name;
                      filename := name;
                      sheet := fill_rows 2 (results s) (fill_texts 1 1 headers ∅) |}
        end
      end
    end.
Proof.
  intros Hrs. unfold export_to_excel. destruct (results s) as [|d0 rest]; [done|].
  destruct makedirs_error; [done|].
  rewrite write_headers_spec by apply headers_written. cbn [mbind outcome_bind].
  rewrite write_rows_spec.
  destruct (List.find unwritable (all_texts (d0 :: rest))); cbn [mbind outcome_bind];
    [done|].
  by destruct save_error.
Qed.

Lemma sheet_lookup rs row col :
  fill_rows 2 rs (fill_texts 1 1 headers ∅) !! (row, col) = expected_cell rs row col.
Proof.
  rewrite fill_rows_lookup, fill_texts_lookup, lookup_empty.
  destruct row as [|[|i]].
  - rewrite decide_False by lia. by rewrite decide_False by lia.
  - rewrite decide_False by lia. cbn [expected_cell].
    destruct col as [|c].
    + by rewrite decide_False by lia.
    + destruct (decide (c < 9)%nat).
      * rewrite decide_True by (cbn; lia). rewrite Nat.sub_succ, Nat.sub_0_r.
        apply headers_written.
      * rewrite decide_False by (cbn; lia).
        symmetry. rewrite fmap_None. apply lookup_ge_None_2. cbn. lia.
  - rewrite decide_True by lia. rewrite (decide_False (P := _ ∧ _)) by lia.
    replace (S (S i) - 2)%nat with i by lia. cbn [expected_cell].
    destruct (rs !! i) as [d|]; [|done].
    destruct col as [|[|c]]; cbn [row_cell]; [done| |].
    + do 2 f_equal. lia.
    + by destruct (texts_of d !! c).
Qed.

(** X15: [export_to_excel] raises its [ValueError] exactly when the store
    is empty.  Otherwise it raises the exception of the file system when
    the folder cannot be made, else openpyxl's [IllegalCharacterError] for
    the first text of the store, in the order of the writes, that has a
    control character other than tab, line feed and carriage return among
    its first 32767 code points, else the exception of the file system
    when the workbook cannot be saved.  When it returns, the sheet has the
    nine headers in row 1 and, in row [i + 2], the number [i + 1] followed
    by the eight texts of the [i]-th stored record, each cut to 32767 code
    points, in the order of the store; every other cell is empty. *)
Theorem export_to_excel_sheet (join : str → str → str) (fecha : str)
    (makedirs_error save_error : option string) (rubro depto : str) (s : Scraper) :
  match export_to_excel join fecha makedirs_error save_error rubro depto s with
  | Raised e =>
    (results s = [] ∧ e = ValueError "No hay resultados para exportar")
    ∨ (results s ≠ [] ∧ ∃ text, makedirs_error = Some text ∧ e = OtherError text)
    ∨ (results s ≠ [] ∧ makedirs_error = None
       ∧ ∃ v, List.find unwritable (all_texts (results s)) = Some v
              ∧ e = IllegalCharacterError (take max_cell_length v))
    ∨ (results s ≠ [] ∧ makedirs_error = None
       ∧ List.find unwritable (all_texts (results s)) = None
       ∧ ∃ text, save_error = Some text ∧ e = OtherError text)
  | Returned out =>
    results s ≠ [] ∧ makedirs_error = None ∧ save_error = None
    ∧ (∀ v, v ∈ all_texts (results s) → unwritable v = false)
    ∧ ∀ row col, sheet out !! (row, col) = expected_cell (results s) row col
  end.
Proof.
  destruct (decide (results s = [])) as [Hrs|Hrs].
  { unfold export_to_excel. rewrite Hrs. by left. }
  rewrite export_to_excel_cases by done.
  destruct makedirs_error as [text|]; [right; left; by eauto|].
  destruct (List.find unwritable (all_texts (results s))) as [v|] eqn:Hfind.
  { right; right; left. split_and!; try done. by exists v. }
  destruct save_error as [text|].
  { right; right; right. split_and!; try done. by exists text. }
  split_and!; try done.
  - intros v Hv. apply (find_none _ _ Hfind). by apply list_elem_of_In.
  - intros row col. apply sheet_lookup.
Qed.

Lemma replace_single_removes (a b : N) (s : str) :
  a ≠ b → a ∉ replace [a] [b] s.
Proof.
  intros Hab. unfold replace. rewrite replace_from_single.
  intros (c & Hc & _)%list_elem_of_fmap.
  destruct (N.eqb_spec c a); congruence.
Qed.

Lemma replace_single_keeps_out (a b c : N) (s : str) :
  c ≠ b → c ∉ s → c ∉ replace [a] [b] s.
Proof.
  intros Hcb Hout. unfold replace. rewrite replace_from_single.
  intros (d & Hd & Hin)%list_elem_of_fmap.
  destruct (N.eqb_spec d a); congruence.
Qed.

(** X16: when the file system raises nothing and openpyxl accepts every
    text of the store, the workbook is saved in a folder named after the
    category, under [base_folder]; the folder name contains neither a
    space nor a slash, and the file name contains no space. *)
Theorem export_to_excel_names (join : str → str → str) (fecha rubro depto : str)
    (s : Scraper) :
  results s ≠ [] →
  List.find unwritable (all_texts (results s)) = None →
  SPACE ∉ fecha →
  ∃ out folder,
    export_to_excel join fecha None None rubro depto s = Returned out
    ∧ filepath out = join (join base_folder folder) (filename out)
    ∧ (SPACE ∉ folder) ∧ (47 ∉ folder)
    ∧ SPACE ∉ filename out.
Proof.
  intros Hrs Htexts Hfecha. rewrite export_to_excel_cases by done. rewrite Htexts.
  eexists _, _. split; [reflexivity|]. cbn [filepath filename].
  change (U " ") with [SPACE]. change (U "/") with [47]. change (U "_") with [95].
  change (U "-") with [45].
  assert (SPACE ∉ replace [47] [45] (replace [SPACE] [95] (strip rubro))) as Hfolder.
  { apply replace_single_keeps_out; [done|]. by apply replace_single_removes. }
  split_and!; try done.
  - by apply replace_single_removes.
  - rewrite !not_elem_of_app. split_and!; try done.
    + by intros ?%list_elem_of_singleton.
    + by apply replace_single_removes.
    + by intros ?%list_elem_of_singleton.
    + intros Hin. apply list_elem_of_In in Hin. vm_compute in Hin.
      repeat (destruct Hin as [Hin|Hin]; [done|]). done.
Qed.

Lemma export_to_excel_names_witness :
  ∃ out folder,
    export_to_excel posix_join (U "2024-05-01_10-30") None None (U " hotel / spa ")
      (U "Cusco") one_record = Returned out
    ∧ filepath out = posix_join (posix_join base_folder folder) (filename out)
    ∧ (SPACE ∉ folder) ∧ (47 ∉ folder)
    ∧ SPACE ∉ filename out.
Proof.
  apply (export_to_excel_names posix_join (U "2024-05-01_10-30") (U " hotel / spa ")
           (U "Cusco") one_record).
  - done.
  - by vm_compute.
  - intros Hin. apply list_elem_of_In in Hin. vm_compute in Hin.
    repeat (destruct Hin as [Hin|Hin]; [done|]). done.
Defined.

(** X17: the export endpoint answers 400 exactly when there is no
    scraper or its store is empty, so the [ValueError] of
    [export_to_excel] is never raised through it; with results it answers
    with the file when the export returns and the file exists, and with
    500 and the text of the exception otherwise. *)
Theorem export_results_answers (join : str → str → str) (fecha : str)
    (makedirs_error save_error : option string) (path_exists : str → bool)
    (basename : str → str) (str_of_missing : string) (str_of_illegal : str → string)
    (config : Main.ScraperConfig) (g : Main.Globals) :
  match export_results join fecha makedirs_error save_error path_exists basename
          str_of_missing str_of_illegal config g with
  | Main.HTTPException code detail =>
    (code = 400%nat ∧ detail = "No results to export"%string
     ∧ (Main.scraper g = None ∨ ∃ s, Main.scraper g = Some s ∧ results s = []))
    ∨ (code = 500%nat
       ∧ ∃ s, Main.scraper g = Some s ∧ results s ≠ []
         ∧ ((∃ e, export_to_excel join fecha makedirs_error save_error
                    (Main.rubro config) (Main.departamento config) s = Raised e
                  ∧ (∀ text, e ≠ ValueError text)
                  ∧ detail = str_of_exception str_of_illegal e)
            ∨ (detail = str_of_missing
               ∧ ∃ out, export_to_excel join fecha makedirs_error save_error
                          (Main.rubro config) (Main.departamento config) s
                        = Returned out
                        ∧ path_exists (filepath out) = false)))
  | Main.Ok response =>
    (∃ s out, Main.scraper g = Some s ∧ results s ≠ []
              ∧ export_to_excel join fecha makedirs_error save_error
                  (Main.rubro config) (Main.departamento config) s = Returned out
              ∧ path response = filepath out)
    ∧ path_exists (path response) = true
    ∧ download_name response = basename (path response)
  end.
Proof.
  unfold export_results. destruct (Main.scraper g) as [s|]; [|by left; split_and!; eauto].
  destruct (results s) as [|d rest] eqn:Hrs; [by left; split_and!; eauto|].
  assert (results s ≠ []) as Hne by (by rewrite Hrs).
  pose proof (export_to_excel_sheet join fecha makedirs_error save_error
                (Main.rubro config) (Main.departamento config) s) as Hsheet.
  destruct (export_to_excel _ _ _ _ _ _ s) as [e|out] eqn:Hexp.
  - right. split; [done|]. exists s. split_and!; try done. left. exists e.
    split_and!; try done. intros text ->.
    destruct Hsheet as [[? _]|[(_ & t & _ & [=])|[(_ & _ & v & _ & [=])
                                                  |(_ & _ & _ & t & _ & [=])]]].
    done.
  - destruct (path_exists (filepath out)) eqn:Hp.
    + split_and!; try done. by exists s, out.
    + right. split; [done|]. exists s. split_and!; try done. right.
      split; [done|]. by exists out.
Qed.

(** ** The session as the endpoints see it *)

(** X18: a start is accepted whenever no session is running, and it
    replaces the session by a new one: once its task has taken its first
    step the status is running, not paused, with no results (those of an
    earlier session are gone), a second start is rejected and changes
    nothing, and pause and resume are accepted and switch only the paused
    flag.  After a stop of that session, during which nothing touches the
    flags and the store (no extraction coroutine is in flight), the status
    is not running and not paused, the task is cancelled, pause and resume
    are rejected, and a start is accepted again. *)
Theorem session_lifecycle (config config' : Main.ScraperConfig)
    (ending : Scraper → Scraper) (g : Main.Globals) :
  (∀ s, Main.scraper g = Some s → is_running s = false) →
  (∀ s, is_running (ending s) = is_running s ∧ is_paused (ending s) = is_paused s
        ∧ results (ending s) = results s) →
  let g1 := task_started (Main.start_scraper config g).2 in
  let g2 := (Main.stop_scraper ending g1).2 in
  (∃ body, (Main.start_scraper config g).1 = Main.Ok body)
  ∧ Main.get_status g1
    = Main.Ok {| Main.st_is_running := true; Main.st_is_paused := false;
                 Main.results_count := 0 |}
  ∧ Main.get_results g1 = Main.Ok []
  ∧ Main.start_scraper config' g1
    = (Main.HTTPException 400 "Scraper is already running", g1)
  ∧ Main.get_status (Main.pause_scraper g1).2
    = Main.Ok {| Main.st_is_running := true; Main.st_is_paused := true;
                 Main.results_count := 0 |}
  ∧ Main.get_status (Main.resume_scraper (Main.pause_scraper g1).2).2
    = Main.get_status g1
  ∧ Main.get_status g2
    = Main.Ok {| Main.st_is_running := false; Main.st_is_paused := false;
                 Main.results_count := 0 |}
  ∧ Main.scraper_task g2 = Some Main.cancelled
  ∧ (Main.pause_scraper g2).1 = Main.HTTPException 400 "No active scraper to pause"
  ∧ (Main.resume_scraper g2).1 = Main.HTTPException 400 "No active scraper to resume"
  ∧ ∃ body, (Main.start_scraper config' g2).1 = Main.Ok body.
Proof.
  intros Hidle Hquiet.
  assert ((Main.start_scraper config g).2
          = {| Main.scraper := Some new_scraper;
               Main.scraper_task := Some Main.scheduled |}) as Hg.
  { unfold Main.start_scraper.
    destruct (Main.scraper g) as [s|] eqn:Hs; [rewrite (Hidle s eq_refl)|]; reflexivity. }
  assert (∃ body, (Main.start_scraper config g).1 = Main.Ok body) as Hok.
  { unfold Main.start_scraper.
    destruct (Main.scraper g) as [s|] eqn:Hs; [rewrite (Hidle s eq_refl)|];
      eexists; reflexivity. }
  cbv zeta. rewrite Hg. split; [exact Hok|].
  destruct (Hquiet (stop (scrape_begin new_scraper))) as (Hrun & Hpaused & Hstore).
  split_and!; try reflexivity.
  - unfold Main.get_status, Main.stop_scraper, task_started.
    cbn [Main.scraper Main.scraper_task fmap option_fmap option_map Main.awaits snd].
    by rewrite Hrun, Hpaused, Hstore.
  - unfold Main.pause_scraper, Main.stop_scraper, task_started.
    cbn [Main.scraper Main.scraper_task fmap option_fmap option_map Main.awaits snd].
    by rewrite Hrun.
  - unfold Main.resume_scraper, Main.stop_scraper, task_started.
    cbn [Main.scraper Main.scraper_task fmap option_fmap option_map Main.awaits snd].
    by rewrite Hrun.
  - unfold Main.start_scraper at 1. unfold Main.stop_scraper, task_started.
    cbn [Main.scraper Main.scraper_task fmap option_fmap option_map Main.awaits snd].
    rewrite Hrun. eexists; reflexivity.
Qed.

Lemma session_lifecycle_witness :
  Main.start_scraper hotel_cusco
    (task_started (Main.start_scraper hotel_cusco ended_session).2)
  = (Main.HTTPException 400 "Scraper is already running",
     task_started (Main.start_scraper hotel_cusco ended_session).2).
Proof.
  pose proof (session_lifecycle hotel_cusco hotel_cusco id ended_session) as H.
  cbv zeta in H. apply H; [intros s [= <-]; reflexivity|done].
Defined.

(** ** The labels of the address and the telephone *)

Lemma replace_from_skip old new p x :
  replace_from old new (length p) (p ++ x) = replace_from old new 0 x.
Proof. induction p as [|c p IH]; [done|]. exact IH. Qed.

Lemma replace_prefix old x :
  old ≠ [] → replace old [] (old ++ x) = replace old [] x.
Proof.
  destruct old as [|c o]; [done|]. intros _. unfold replace.
  cbn [app replace_from].
  assert (startswith (c :: o ++ x) (c :: o) = true) as ->.
  { apply startswith_spec. by exists x. }
  cbn [length app]. rewrite Nat.sub_succ, Nat.sub_0_r. apply replace_from_skip.
Qed.

Lemma replace_absent old new x :
  contains x old = false → replace old new x = x.
Proof.
  unfold replace. induction x as [|c x IH]; [done|].
  cbn [contains replace_from]. intros [Hs Hc]%orb_false_iff.
  rewrite Hs. f_equal. by apply IH.
Qed.

Lemma contains_cons_false c a old :
  startswith (c :: a) old = false → contains a old = false →
  contains (c :: a) old = false.
Proof. intros Hs Hc. cbn [contains]. by rewrite Hs, Hc. Qed.

Lemma store_direccion v d :
  v ≠ [] →
  direccion (store f_direccion v d)
  = replace (U "Address: ") []
      (replace (U "Dirección: ") [] (replace (U "Dirección: ") [] v)).
Proof. by destruct v. Qed.

Lemma store_telefono v d :
  v ≠ [] →
  telefono (store f_telefono v d)
  = replace (U "Phone: ") [] (replace (U "Teléfono: ") [] v).
Proof. by destruct v. Qed.

Ltac absent_after_prefix :=
  vm_compute (U _); cbn [app];
  repeat (apply contains_cons_false; [reflexivity|]); assumption.

(** X19: the label that the page puts before the address (Dirección or
    Address) and before the telephone (Teléfono or Phone) is removed
    before the value is stored, and a value without label is stored as it
    is. *)
Theorem store_strips_label (addr phone : str) (d : BusinessRecord) :
  contains addr (U "Dirección: ") = false →
  contains addr (U "Address: ") = false →
  contains phone (U "Teléfono: ") = false →
  contains phone (U "Phone: ") = false →
  direccion (store f_direccion (U "Dirección: " ++ addr) d) = addr
  ∧ direccion (store f_direccion (U "Address: " ++ addr) d) = addr
  ∧ telefono (store f_telefono (U "Teléfono: " ++ phone) d) = phone
  ∧ telefono (store f_telefono (U "Phone: " ++ phone) d) = phone
  ∧ (addr ≠ [] → direccion (store f_direccion addr d) = addr)
  ∧ (phone ≠ [] → telefono (store f_telefono phone d) = phone).
Proof.
  intros Hd Ha Ht Hp.
  assert (contains (U "Address: " ++ addr) (U "Dirección: ") = false) as Hd'
    by absent_after_prefix.
  assert (contains (U "Phone: " ++ phone) (U "Teléfono: ") = false) as Ht'
    by absent_after_prefix.
  split_and!.
  - rewrite store_direccion by (vm_compute (U _); done).
    rewrite replace_prefix by (vm_compute; done).
    by rewrite !(replace_absent _ _ addr).
  - rewrite store_direccion by (vm_compute (U _); done).
    rewrite !(replace_absent (U "Dirección: ") _ (U "Address: " ++ addr)) by done.
    rewrite replace_prefix by (vm_compute; done).
    by rewrite replace_absent.
  - rewrite store_telefono by (vm_compute (U _); done).
    rewrite replace_prefix by (vm_compute; done).
    by rewrite !(replace_absent _ _ phone).
  - rewrite store_telefono by (vm_compute (U _); done).
    rewrite (replace_absent (U "Teléfono: ")) by done.
    rewrite replace_prefix by (vm_compute; done).
    by rewrite replace_absent.
  - intros Hne. rewrite store_direccion by done.
    by rewrite !(replace_absent _ _ addr).
  - intros Hne. rewrite store_telefono by done.
    by rewrite !(replace_absent _ _ phone).
Qed.

Lemma store_strips_label_witness :
  direccion (store f_direccion (U "Dirección: Av. Principal 123") (empty_data (U "Lima")))
  = U "Av. Principal 123"
  ∧ telefono (store f_telefono (U "Phone: 01 234 5678") (empty_data (U "Lima")))
    = U "01 234 5678".
Proof.
  destruct (store_strips_label (U "Av. Principal 123") (U "01 234 5678")
              (empty_data (U "Lima"))) as (Ha & _ & _ & Hp & _);
    [reflexivity..|].
  split; [exact Ha|exact Hp].
Defined.
